(** * ukat: voxel-wise T2 fitting and B0 field-map estimation

    A shallow embedding of [ukat/mapping/t2.py], [ukat/mapping/b0.py] and
    [methods/tools.py].

    Conventions of the embedding.
    - A numpy [float64] is a primitive binary64 [float]; every arithmetic
      operation of the source is the IEEE operation on [float], in the
      order Python evaluates it.
    - An n-dimensional array is given in flattened (C) order.  The spatial
      shape is carried along by numpy but never inspected by the code under
      study except through [np.prod]; [reshape], [flatten] and [squeeze]
      are views of the same flat data.
    - A raised Python exception is a value [Raise e] of the type [res].
    - The only object mutated while shared with the caller is the mask of
      [T2.__init__]; boolean arrays therefore live in a store [heap] and
      are passed by reference ([loc]). *)

From Stdlib Require Import Floats ZArith.
From stdpp Require Import base option list gmap strings.

Local Open Scope float_scope.

(** ** Python exceptions and fallible results *)

Inductive exn : Set :=
  | AssertionError
  | TypeError
  | ValueError
  | IndexError
  | RuntimeError
  | MaskError.

Inductive res (A : Type) : Type :=
  | Ok (a : A)
  | Raise (e : exn).
Arguments Ok {A} a.
Arguments Raise {A} e.

#[global] Instance res_ret : MRet res := fun _ a => Ok a.
#[global] Instance res_bind : MBind res := fun _ _ k m =>
  match m with
  | Ok a => k a
  | Raise e => Raise e
  end.

(** ** numpy helpers on flat [float64] arrays *)

(** [np.pi], [3.2], [0.001] and [np.finfo(float).tiny] as the doubles
    Python reads them. *)
Definition np_pi : float := 0x1.921fb54442d18p+1.
Definition margin : float := 0x1.999999999999ap+1.
Definition milli : float := 0x1.0624dd2f1a9fcp-10.
Definition np_tiny : float := 0x1p-1022.

(** [np.maximum]/[np.minimum] of two doubles: a NaN operand wins. *)
Definition fmax (x y : float) : float :=
  if is_nan x then x else if is_nan y then y else if x <? y then y else x.
Definition fmin (x y : float) : float :=
  if is_nan x then x else if is_nan y then y else if y <? x then y else x.

(** [np.amax]/[np.amin] over the whole array; a zero-size array has no
    identity for the reduction and numpy raises [ValueError]. *)
Definition np_amax (a : list float) : res float :=
  match a with
  | [] => Raise ValueError
  | x :: xs => Ok (foldl fmax x xs)
  end.
Definition np_amin (a : list float) : res float :=
  match a with
  | [] => Raise ValueError
  | x :: xs => Ok (foldl fmin x xs)
  end.

(** [np.sum] along the last axis: the additions of the row's entries. *)
Definition np_sum (row : list float) : float := foldl add 0 row.

(** ** [methods/tools.py] *)

(** [convert_to_pi_range].  The arrays [pi_array], [min_array] and
    [max_array] are constant arrays [c * np.ones(shape)], so their entry
    at every position is [c * 1.0]. *)
Definition convert_to_pi_range (pixel_array : list float)
  : res (list float) :=
  mx ← np_amax pixel_array ;
  if margin <? mx then
    mn ← np_amin pixel_array ;
    if mn <? - margin then
      let pi_entry := np_pi * 1 in
      let min_entry := mn * 1 in
      let max_entry := mx * 1 in
      Ok (map (fun x => 2 * pi_entry * (x - min_entry)
                          / (max_entry - min_entry) - pi_entry)
              pixel_array)
    else Ok pixel_array
  else Ok pixel_array.

(** ** The store of boolean arrays

    A numpy array handed to a constructor is shared with the caller: the
    argument is a reference into the store. *)

Abbreviation loc := positive.
Abbreviation heap := (gmap positive (list bool)).

(** Computations that read and write the store and may raise. *)
Definition M (A : Type) : Type := heap → heap * res A.

#[global] Instance M_ret : MRet M := fun _ a h => (h, Ok a).
#[global] Instance M_bind : MBind M := fun _ _ k m h =>
  match m h with
  | (h', Ok a) => k a h'
  | (h', Raise e) => (h', Raise e)
  end.

Definition raise {A} (e : exn) : M A := fun h => (h, Raise e).
Definition lift {A} (r : res A) : M A := fun h => (h, r).

(** [assert c, msg] *)
Definition py_assert (c : bool) : M () :=
  if c then mret () else raise AssertionError.

(** [np.ones(shape, dtype=bool)]: a fresh array of [n] entries. *)
Definition np_ones_bool (n : nat) : M loc := fun h =>
  let l := fresh (dom h) in (<[l := replicate n true]> h, Ok l).

(** Reading the array behind a reference.  A Python reference is never
    dangling; the model raises [TypeError] on one, and every statement
    below is about live references. *)
Definition load (l : loc) : M (list bool) := fun h =>
  match h !! l with
  | Some a => (h, Ok a)
  | None => (h, Raise TypeError)
  end.

(** [a[index] = False] with a boolean [index]: numpy raises [IndexError]
    unless the index has the shape of [a]; otherwise the array behind the
    reference is overwritten in place at the positions where [index] holds. *)
Definition clear_where (index a : list bool) : list bool :=
  zip_with (fun i b : bool => if i then false else b) index a.

Definition assign_false (l : loc) (index : list bool) : M () := fun h =>
  match h !! l with
  | Some a =>
      if (length index =? length a)%nat
      then (<[l := clear_where index a]> h, Ok ())
      else (h, Raise IndexError)
  | None => (h, Raise TypeError)
  end.

(** ** [ukat/mapping/t2.py] *)

(** The input array: [n_te] is [pixel_array.shape[-1]] and [voxels] is
    [pixel_array.reshape(-1, n_te)], one row of [n_te] samples per voxel. *)
Record pixel_array := PixelArray {
  n_te : nat;
  voxels : list (list float)
}.

(** The value passed as [multithread]. *)
Inductive multithread_arg := MT_True | MT_False | MT_auto | MT_other.

(** The tuple [(t2, t2_err, m0, m0_err)] returned by [__fit_signal__]. *)
Record FitResult := mkFit {
  fit_t2 : float;
  fit_t2_err : float;
  fit_m0 : float;
  fit_m0_err : float
}.

(** The four maps of [__fit__], flattened. *)
Record maps := Maps {
  t2_map : list float;
  t2_err : list float;
  m0_map : list float;
  m0_err : list float
}.

Record T2 := mkT2 {
  self_n_te : nat;
  self_n_vox : nat;
  self_mask : loc;
  self_multithread : bool;
  self_maps : maps
}.

(** [np.isnan(np.sum(pixel_array, axis=-1))] *)
Definition nan_voxels (px : pixel_array) : list bool :=
  map (fun row => is_nan (np_sum row)) (voxels px).

(** [np.argwhere(mask)] of a flat mask: the positions holding [True], in
    ascending order. *)
Fixpoint argwhere_from (i : nat) (mask : list bool) : list nat :=
  match mask with
  | [] => []
  | b :: rest => (if b then [i] else []) ++ argwhere_from (S i) rest
  end.
Definition np_argwhere (mask : list bool) : list nat := argwhere_from 0 mask.

(** [np.argwhere(mask).squeeze()].  [argwhere] has shape [(k, 1)];
    [squeeze] drops every axis of length one, so [k = 1] leaves a
    zero-dimensional array and every other [k] a vector of length [k]. *)
Inductive index_array :=
  | Idx0 (i : nat)
  | Idx1 (l : list nat).

Definition squeeze (found : list nat) : index_array :=
  match found with
  | [i] => Idx0 i
  | l => Idx1 l
  end.

(** [for ind in idx]: iterating a zero-dimensional array is a [TypeError]. *)
Definition iterate (idx : index_array) : res (list nat) :=
  match idx with
  | Idx0 _ => Raise TypeError
  | Idx1 l => Ok l
  end.

(** [signal[ind, :]] *)
Definition row_at (signal : list (list float)) (ind : nat)
  : res (list float) :=
  match signal !! ind with
  | Some sig => Ok sig
  | None => Raise IndexError
  end.

(** [t2_map[ind], t2_err[ind], m0_map[ind], m0_err[ind] = result] *)
Definition store_result (m : maps) (ind : nat) (r : FitResult) : maps :=
  Maps (<[ind := fit_t2 r]> (t2_map m)) (<[ind := fit_t2_err r]> (t2_err m))
       (<[ind := fit_m0 r]> (m0_map m)) (<[ind := fit_m0_err r]> (m0_err m)).

(** [zip( *results)]: the transposition of the list of 4-tuples; of an
    empty list it is empty. *)
Definition zip_star (results : list FitResult) : list (list float) :=
  match results with
  | [] => []
  | _ => [map fit_t2 results; map fit_t2_err results;
          map fit_m0 results; map fit_m0_err results]
  end.

(** [a[idx] = values] with an index vector: entry [j] of [values] goes to
    position [idx[j]].  Both have one entry per submitted task. *)
Definition scatter (a : list float) (idx : list nat) (values : list float)
  : list float :=
  foldl (fun acc iv => <[iv.1 := iv.2]> acc) a (zip idx values).

(** The maps after the results of the voxels [idx] have been stored, one
    voxel after the other. *)
Definition store_all (m : maps) (idx : list nat) (results : list FitResult)
  : maps :=
  foldl (fun acc ir => store_result acc ir.1 ir.2) m (zip idx results).

Definition zero_maps (n_vox : nat) : maps :=
  Maps (replicate n_vox 0) (replicate n_vox 0)
       (replicate n_vox 0) (replicate n_vox 0).

Section Fitting.

(** [np.exp] and [scipy.optimize.curve_fit] are external.  [curve_fit]
    returns [(popt, pcov)] or raises; [RuntimeError] is its report of a
    least-squares failure. *)
Variable np_exp : float → float.
Variable curve_fit :
  (list float → float → float → list float) →
  list float → list float →
  float * float → (float * float) * (float * float) →
  res ((float * float) * ((float * float) * (float * float))).

(** [two_param_eq]: [np.sqrt(np.square(m0 * np.exp(-t / t2)))] *)
Definition two_param_eq (t : list float) (t2 m0 : float) : list float :=
  map (fun ti => let s := m0 * np_exp (- ti / t2) in sqrt (s * s)) t.

Definition bounds : (float * float) * (float * float) :=
  ((0, 0), (700, 1000000)).
Definition initial_guess : float * float := (20, 10000).

(** [T2.__fit_signal__] *)
Definition fit_signal (sig te : list float) : res FitResult :=
  fitted ← match curve_fit two_param_eq te sig initial_guess bounds with
           | Raise RuntimeError => Ok ((0, 0), ((0, 0), (0, 0)))
           | outcome => outcome
           end;
  let popt := fitted.1 in
  let pcov := fitted.2 in
  if popt.1 <? bounds.2.1 - 1 then
    let err := (sqrt pcov.1.1, sqrt pcov.2.2) in
    Ok (mkFit popt.1 err.1 popt.2 err.2)
  else Ok (mkFit 0 0 0 0).

(** The single-threaded loop; [done] counts [progress.update(1)]. *)
Fixpoint fit_sequential (signal : list (list float)) (te : list float)
    (idx : list nat) (m : maps) (done : nat) : res (maps * nat) :=
  match idx with
  | [] => Ok (m, done)
  | ind :: rest =>
      sig ← row_at signal ind;
      r ← fit_signal sig te;
      fit_sequential signal te rest (store_result m ind r) (S done)
  end.

(** The process pool.  Task [j] is the [j]-th submitted signal; its
    future is pending ([None]) until a worker has finished it.  Workers
    finish tasks in an order the caller does not control. *)
Record pool := Pool {
  futures : list (option (res FitResult));
  progress : nat
}.

(** A worker finishes task [j]: the future takes the task's outcome and
    its done-callback advances the progress bar. *)
Definition complete (tasks : list (list float)) (te : list float)
    (p : pool) (j : nat) : pool :=
  match tasks !! j, futures p !! j with
  | Some sig, Some None =>
      Pool (<[j := Some (fit_signal sig te)]> (futures p)) (S (progress p))
  | _, _ => p
  end.

(** [future.result()]: the outcome of a finished task, re-raising what
    the task raised; on a pending future the call blocks until a worker
    has run the task. *)
Definition future_result (tasks : list (list float)) (te : list float)
    (p : pool) (j : nat) : res FitResult :=
  match futures p !! j with
  | Some (Some outcome) => outcome
  | _ => sig ← row_at tasks j; fit_signal sig te
  end.

(** What task [j] yields, whoever runs it and whenever. *)
Definition task_outcome (tasks : list (list float)) (te : list float)
    (j : nat) : res FitResult :=
  sig ← row_at tasks j; fit_signal sig te.

(** Every resolved future holds the outcome of its own task. *)
Definition resolved_right (tasks : list (list float)) (te : list float)
    (p : pool) : Prop :=
  ∀ j r, futures p !! j = Some (Some r) → r = task_outcome tasks te j.

(** The multithreaded branch; [order] is the order in which workers
    finish tasks before the results are collected. *)
Definition fit_parallel (signal : list (list float)) (te : list float)
    (idx : list nat) (order : list nat) (m : maps) : res maps :=
  tasks ← mapM (row_at signal) idx;
  let submitted := Pool (replicate (length tasks) None) 0 in
  let p := foldl (complete tasks te) submitted order in
  results ← mapM (future_result tasks te p) (seq 0 (length tasks));
  match zip_star results with
  | [r_t2; r_t2_err; r_m0; r_m0_err] =>
      Ok (Maps (scatter (t2_map m) idx r_t2)
               (scatter (t2_err m) idx r_t2_err)
               (scatter (m0_map m) idx r_m0)
               (scatter (m0_err m) idx r_m0_err))
  | _ => Raise ValueError
  end.

(** [T2.__fit__], on the flattened mask and the reshaped signal. *)
Definition fit (n_vox : nat) (mask : list bool)
    (signal : list (list float)) (te : list float) (multithread : bool)
    (order : list nat) : res maps :=
  let m := zero_maps n_vox in
  let idx := squeeze (np_argwhere mask) in
  if multithread then
    l ← iterate idx;
    fit_parallel signal te l order m
  else
    l ← iterate idx;
    out ← fit_sequential signal te l m 0;
    Ok out.1.

(** The resolution of [multithread='auto']. *)
Definition resolve_multithread (mt : multithread_arg) (n_vox : nat)
  : bool :=
  match mt with
  | MT_auto => (20 <? n_vox)%nat
  | MT_True => true
  | _ => false
  end.

(** [T2.__init__] *)
Definition T2_init (px : pixel_array) (echo_list : list float)
    (mask : option loc) (mt : multithread_arg) (order : list nat)
  : M T2 :=
  py_assert (n_te px =? length echo_list)%nat ;;
  py_assert (match mt with MT_other => false | _ => true end) ;;
  let n_vox := length (voxels px) in
  l ← match mask with
      | None => np_ones_bool n_vox
      | Some l => mret l
      end;
  assign_false l (nan_voxels px) ;;
  let multithread := resolve_multithread mt n_vox in
  flat ← load l;
  m ← lift (fit n_vox flat (voxels px) echo_list multithread order);
  mret (mkT2 (n_te px) n_vox l multithread m).

(** What [__init__] computes once the mask [flat], stored at [l], has
    been settled: the fit, and the object holding its maps. *)
Definition T2_outcome (px : pixel_array) (te : list float) (l : loc)
    (flat : list bool) (mt : multithread_arg) (order : list nat)
  : res T2 :=
  let n_vox := length (voxels px) in
  let multithread := resolve_multithread mt n_vox in
  m ← fit n_vox flat (voxels px) te multithread order;
  Ok (mkT2 (n_te px) n_vox l multithread m).

End Fitting.

(** ** [ukat/mapping/b0.py] *)

(** A numpy masked array in flattened order: [None] is a masked (invalid)
    entry, [Some x] a valid entry of value [x]. *)
Abbreviation marray := (list (option float)).

(** [np.ma.masked_array(data, mask=mask)].  An entry is masked where the
    mask holds [True].  [mask=None] masks nothing.  A mask of another size
    than the data is resized when it has one entry and refused with
    [MaskError] otherwise. *)
Definition masked_array (data : list float) (mask : option (list bool))
  : res marray :=
  match mask with
  | None => Ok (map Some data)
  | Some m =>
      if (length m =? length data)%nat then
        Ok (zip_with (fun (x : float) (b : bool) =>
                        if b then None else Some x) data m)
      else
        match m with
        | [b] => Ok (map (fun x => if b then None else Some x) data)
        | _ => Raise MaskError
        end
  end.

(** [a - b] on masked arrays of one shape: the difference where both
    entries are valid, masked elsewhere.  Arrays of different sizes do not
    broadcast ([ValueError]). *)
Definition ma_subtract (a b : marray) : res marray :=
  if (length a =? length b)%nat then
    Ok (zip_with (fun x y =>
                    match x, y with
                    | Some u, Some v => Some (u - v)
                    | _, _ => None
                    end) a b)
  else Raise ValueError.

(** The domain of numpy's masked division: the quotient [a / b] is
    masked where [|a| * tiny >= |b|]. *)
Definition unsafe_divide (a b : float) : bool :=
  abs b <=? abs a * np_tiny.

(** [a / d] for a masked array and a scalar: an entry of the quotient is
    masked where the entry of [a] is, where the quotient is not finite and
    where the division is outside its domain. *)
Definition ma_entry_divide (d : float) (x : option float) : option float :=
  match x with
  | Some u =>
      let q := u / d in
      if is_finite q && negb (unsafe_divide u d) then Some q else None
  | None => None
  end.
Definition ma_true_divide (a : marray) (d : float) : marray :=
  map (ma_entry_divide d) a.

(** [pixel_array[..., j]] *)
Definition last_axis (px : pixel_array) (j : nat) : res (list float) :=
  mapM (fun row : list float =>
          match row !! j with
          | Some x => Ok x
          | None => Raise IndexError
          end) (voxels px).

Record B0 := mkB0 {
  b0_n_te : nat;
  b0_mask : list bool;
  delta_te : float;
  phase0 : marray;
  phase1 : marray;
  phase_difference : marray;
  b0_map : marray
}.

(** One phase image as [B0.__init__] builds it:
    [np.ma.masked_array(convert_to_pi_range(np.squeeze(
       self.pixel_array[..., j])), mask=mask)] *)
Definition build_phase (px : pixel_array) (mask : option (list bool))
    (j : nat) : res marray :=
  raw ← last_axis px j;
  scaled ← convert_to_pi_range raw;
  masked_array scaled mask.

Section FieldMap.

(** [skimage.restoration.unwrap_phase] is external. *)
Variable unwrap_phase : marray → bool → res marray.

(** [B0.__init__].  The affine is stored and never read by [__init__]. *)
Definition B0_init (px : pixel_array) (echo_list : list float)
    (mask : option (list bool)) (unwrap wrap_around : bool) : res B0 :=
  let self_mask := match mask with
                   | None => replicate (length (voxels px)) true
                   | Some m => m
                   end in
  if (n_te px =? length echo_list)%nat && (n_te px =? 2)%nat then
    match echo_list with
    | [echo0; echo1] =>
        let dte := abs (echo1 - echo0) * milli in
        built0 ← build_phase px mask 0;
        built1 ← build_phase px mask 1;
        p0 ← (if unwrap then unwrap_phase built0 wrap_around
              else Ok built0);
        p1 ← (if unwrap then unwrap_phase built1 wrap_around
              else Ok built1);
        diff ← ma_subtract p1 p0;
        Ok (mkB0 (n_te px) self_mask dte p0 p1 diff
                 (ma_true_divide diff (2 * np_pi * dte)))
    | _ => Raise IndexError
    end
  else Raise ValueError.

End FieldMap.

(** ** [T2.r2_map] and the state of the pool *)

(** [T2.r2_map]: [np.reciprocal(self.t2_map)], the entrywise [1 / t2]. *)
Definition r2_map (self : T2) : list float :=
  map (fun t2 => 1 / t2) (t2_map (self_maps self)).

(** The outcomes held by the futures that have been resolved. *)
Fixpoint finished {A} (slots : list (option A)) : list A :=
  match slots with
  | [] => []
  | Some a :: rest => a :: finished rest
  | None :: rest => finished rest
  end.

(** ** The order of binary64 values, for the proofs

    A value that is not NaN is placed by a key: its class (minus infinity,
    negative, zero, positive, plus infinity), then its exponent and its
    mantissa, both negated for a negative value.  Comparing two values is
    comparing their keys lexicographically. *)
Definition sf_key (x : spec_float) : Z * Z * Z :=
  match x with
  | S754_nan => (0, 0, 0)%Z
  | S754_zero _ => (0, 0, 0)%Z
  | S754_infinity true => (-2, 0, 0)%Z
  | S754_infinity false => (2, 0, 0)%Z
  | S754_finite false m e => (1, e, Zpos m)%Z
  | S754_finite true m e => (-1, - e, Zneg m)%Z
  end.

Definition lex3 (a b : Z * Z * Z) : comparison :=
  match (a.1.1 ?= b.1.1)%Z with
  | Eq => match (a.1.2 ?= b.1.2)%Z with
          | Eq => (a.2 ?= b.2)%Z
          | c => c
          end
  | c => c
  end.

(** ** [B0.to_nifti]

    The value kept as [self.affine]: a numpy array or a list, with the
    shape [np.shape] gives it, or a value of any other type ([None]
    included).  [B0.__init__] stores it without reading it, so the record
    [B0] leaves it out and [to_nifti] takes it beside the object. *)
Inductive affine_arg :=
  | AffineArray (shape : list nat)
  | AffineList (shape : list nat)
  | AffineOther.

(** The value passed as [maps]: a string, a list of names, or a value of
    any other type.  An entry of the list that is no string compares
    unequal to every name, as an unknown name does. *)
Inductive maps_arg :=
  | MapsStr (s : string)
  | MapsList (names : list string)
  | MapsOther.

(** What [nib.Nifti1Image] is given: one of the float maps, or the mask
    as integers ([self.mask.astype(int)]). *)
Inductive nifti_data :=
  | FloatData (a : marray)
  | IntData (a : list Z).

Definition mask_astype_int (mask : list bool) : list Z :=
  map (fun b : bool => if b then 1%Z else 0%Z) mask.

(** The names [for result in maps] acts on. *)
Definition known_names : list string :=
  ["b0"; "b0_map"; "mask"; "phase0"; "phase1"; "phase_difference"]%string.

(** [maps == 'all' or maps == ['all']] *)
Definition selects_all (maps : maps_arg) : bool :=
  match maps with
  | MapsStr s => bool_decide (s = "all"%string)
  | MapsList [name] => bool_decide (name = "all"%string)
  | _ => false
  end.

(** Computations that write files and may raise: from the state of the
    file system to the state they leave and their outcome.  What has been
    written before an exception stays written. *)
Definition IO (S A : Type) : Type := S → S * res A.

Definition IO_ret {S} : MRet (IO S) := fun _ a fs => (fs, Ok a).
Definition IO_bind {S} : MBind (IO S) := fun _ _ k m fs =>
  match m fs with
  | (fs', Ok a) => k a fs'
  | (fs', Raise e) => (fs', Raise e)
  end.

Section Nifti.

(** [os.path.exists] and [os.path.join] are external, and so are
    [nib.Nifti1Image] and [nib.save]: the first makes an image of an
    array and an affine or raises, the second writes an image under a path
    or raises, and may have written something when it raises. *)
Variable path_exists : string → bool.
Variable path_join : string → string → string.
Variable image : Type.
Variable files : Type.
Variable Nifti1Image : nifti_data → affine_arg → res image.
Variable nib_save : image → string → IO files ().

#[local] Existing Instance IO_ret.
#[local] Existing Instance IO_bind.

Definition io_raise {A} (e : exn) : IO files A := fun fs => (fs, Raise e).
Definition io_lift {A} (r : res A) : IO files A := fun fs => (fs, r).

(** The five pairs of statements that make an image and save it. *)
Definition save_b0_map (self : B0) (affine : affine_arg)
    (base_path : string) : IO files () :=
  b0_nifti ← io_lift (Nifti1Image (FloatData (b0_map self)) affine);
  nib_save b0_nifti (base_path ++ "_b0_map.nii.gz")%string.
Definition save_mask (self : B0) (affine : affine_arg)
    (base_path : string) : IO files () :=
  mask_nifti ← io_lift (Nifti1Image
                          (IntData (mask_astype_int (b0_mask self))) affine);
  nib_save mask_nifti (base_path ++ "_mask.nii.gz")%string.
Definition save_phase0 (self : B0) (affine : affine_arg)
    (base_path : string) : IO files () :=
  phase0_nifti ← io_lift (Nifti1Image (FloatData (phase0 self)) affine);
  nib_save phase0_nifti (base_path ++ "_phase0.nii.gz")%string.
Definition save_phase1 (self : B0) (affine : affine_arg)
    (base_path : string) : IO files () :=
  phase1_nifti ← io_lift (Nifti1Image (FloatData (phase1 self)) affine);
  nib_save phase1_nifti (base_path ++ "_phase1.nii.gz")%string.
Definition save_phase_difference (self : B0) (affine : affine_arg)
    (base_path : string) : IO files () :=
  phase_diff_nifti ← io_lift (Nifti1Image
                                (FloatData (phase_difference self)) affine);
  nib_save phase_diff_nifti (base_path ++ "_phase_difference.nii.gz")%string.

(** The body of [for result in maps]: a name that matches no branch of
    the [if]/[elif] chain does nothing. *)
Definition save_named (self : B0) (affine : affine_arg)
    (base_path : string) (result : string) : IO files () :=
  if bool_decide (result = "b0"%string ∨ result = "b0_map"%string)
  then save_b0_map self affine base_path
  else if bool_decide (result = "mask"%string)
  then save_mask self affine base_path
  else if bool_decide (result = "phase0"%string)
  then save_phase0 self affine base_path
  else if bool_decide (result = "phase1"%string)
  then save_phase1 self affine base_path
  else if bool_decide (result = "phase_difference"%string)
  then save_phase_difference self affine base_path
  else mret ().

(** [for result in maps: body] *)
Fixpoint for_each (names : list string) (body : string → IO files ())
  : IO files () :=
  match names with
  | [] => mret ()
  | result :: rest => body result ;; for_each rest body
  end.

(** [B0.to_nifti] *)
Definition to_nifti (self : B0) (affine : affine_arg)
    (output_directory base_file_name : string) (maps : maps_arg)
  : IO files () :=
  if negb (path_exists output_directory) then io_raise ValueError else
  let base_path := path_join output_directory base_file_name in
  match affine with
  | AffineOther => io_raise TypeError
  | AffineArray shape | AffineList shape =>
      if negb (bool_decide (shape = [4; 4]%nat)) then io_raise ValueError
      else if selects_all maps then
        save_b0_map self affine base_path ;;
        save_mask self affine base_path ;;
        save_phase0 self affine base_path ;;
        save_phase1 self affine base_path ;;
        save_phase_difference self affine base_path
      else
        match maps with
        | MapsList names => for_each names (save_named self affine base_path)
        | _ => io_raise ValueError
        end
  end.

End Nifti.

(** A value whose sign bit is clear, or NaN. *)
Definition sign_clear (x : spec_float) : Prop :=
  match x with
  | S754_nan => True
  | S754_zero s | S754_infinity s | S754_finite s _ _ => s = false
  end.

(** ** Stand-ins for the external routines, used by the examples

    [example_curve_fit] reports a least-squares failure on a signal that
    starts below zero and otherwise "fits" T2 to the first sample;
    [example_unwrap] leaves the phase as it is. *)
Definition example_curve_fit :
    (list float → float → float → list float) →
    list float → list float →
    float * float → (float * float) * (float * float) →
    res ((float * float) * ((float * float) * (float * float))) :=
  fun _ _ sig _ _ =>
    match sig with
    | x :: _ =>
        if x <? 0 then Raise RuntimeError
        else Ok ((x, 5000), ((4, 0), (0, 9)))
    | [] => Raise ValueError
    end.

Definition example_exp : float → float := fun x => x.

Definition example_unwrap : marray → bool → res marray :=
  fun a _ => Ok a.

(** Inputs of the examples. *)
Definition example_px21 : pixel_array :=
  PixelArray 2 (replicate 21 [100; 50]).
Definition example_mask21 : list bool :=
  [true; true] ++ replicate 19 false.
Definition example_px3 : pixel_array :=
  PixelArray 2 [[1; 2]; [nan; 3]; [5; 6]].
Definition example_phases : pixel_array :=
  PixelArray 2 [[1; 1]; [2; 2]].

Definition example_px4 : pixel_array :=
  PixelArray 2 [[1; 2]; [nan; 3]; [5; 6]; [7; 8]].
Definition example_mask4 : list bool := [true; true; true; false].
Definition example_heap4 : heap := {[ 7%positive := example_mask4 ]}.

(** A directory tree that holds the directory [out] only, paths joined
    with a slash, an image library that keeps the data as the image and
    refuses integer data, and a file system that is the list of the files
    written. *)
Definition example_exists : string → bool :=
  fun directory => bool_decide (directory = "out"%string).
Definition example_join : string → string → string :=
  fun directory name => (directory ++ "/" ++ name)%string.
Definition example_Nifti1Image : nifti_data → affine_arg → res nifti_data :=
  fun data _ =>
    match data with
    | IntData _ => Raise ValueError
    | FloatData _ => Ok data
    end.
Definition example_save
  : nifti_data → string → IO (list (string * nifti_data)) () :=
  fun img path fs => (fs ++ [(path, img)], Ok ()).
Definition example_b0 : B0 :=
  mkB0 2 [true; true] 0x1.0624dd2f1a9fcp-9 [Some 1; Some 2] [Some 1; Some 2.5]
       [Some 0; Some 0.5] [Some 0; Some 39.5].

(** ** Two readings of the specification, as they are worded

    [auto_by_selected_count]: under [multithread='auto'] the fit runs in
    parallel exactly when more than 20 voxels are selected by the mask. *)
Definition auto_by_selected_count : Prop :=
  ∀ np_exp curve_fit px te mask order (h h' : heap) obj flat,
    T2_init np_exp curve_fit px te mask MT_auto order h = (h', Ok obj) →
    h' !! self_mask obj = Some flat →
    (self_multithread obj = true ↔ (20 < length (np_argwhere flat))%nat).

(** [identical_phases_zero_everywhere]: two identical phase volumes give a
    field map that is zero at every position, whatever the echo times. *)
Definition identical_phases_zero_everywhere : Prop :=
  ∀ unwrap_phase px te mask unwrap wrap_around obj,
    last_axis px 0 = last_axis px 1 →
    B0_init unwrap_phase px te mask unwrap wrap_around = Ok obj →
    ∀ i, (i < length (voxels px))%nat → b0_map obj !! i = Some (Some 0).

(** [field_map_is_the_quotient]: on every input the field-map path
    accepts, the field map is the phase difference divided by
    [2 * pi * delta_te], entry by entry. *)
Definition field_map_is_the_quotient : Prop :=
  ∀ unwrap_phase px te mask unwrap wrap_around obj,
    B0_init unwrap_phase px te mask unwrap wrap_around = Ok obj →
    ∀ i d, phase_difference obj !! i = Some (Some d) →
           b0_map obj !! i
           = Some (Some (d / (2 * np_pi * delta_te obj))%float).

(** [masked_voxels_excluded_from_normalization]: the voxels a caller's
    mask marks take no part in the normalisation of a phase image, so two
    arrays that differ at such voxels only give the same phase image. *)
Definition masked_voxels_excluded_from_normalization : Prop :=
  ∀ px px' (m : list bool) j built built',
    length m = length (voxels px) → length m = length (voxels px') →
    (∀ i, m !! i = Some false → voxels px !! i = voxels px' !! i) →
    build_phase px (Some m) j = Ok built →
    build_phase px' (Some m) j = Ok built' →
    built = built'.

(** * Properties *)

(** ** Binary64 facts, from the specification of the primitive floats *)

Section Binary64.

Implicit Types x y d : float.

Lemma Prim2SF_of_nan x : is_nan x = true → Prim2SF x = S754_nan.
Proof. intros H. unfold Prim2SF. by rewrite H. Qed.

Lemma nan_of_Prim2SF x : Prim2SF x = S754_nan → x = nan.
Proof. intros H. by rewrite <- (SF2Prim_Prim2SF x), H. Qed.

Lemma add_nan_l x y : is_nan x = true → is_nan (x + y) = true.
Proof.
  intros H. rewrite (nan_of_Prim2SF (x + y)); [done|].
  by rewrite add_spec, (Prim2SF_of_nan x H).
Qed.

Lemma add_nan_r x y : is_nan y = true → is_nan (x + y) = true.
Proof.
  intros H. rewrite (nan_of_Prim2SF (x + y)); [done|].
  rewrite add_spec, (Prim2SF_of_nan y H).
  unfold SF64add. by destruct (Prim2SF x).
Qed.

Lemma finite_cases x :
  is_finite x = true →
  (∃ s, Prim2SF x = S754_zero s) ∨ (∃ s m e, Prim2SF x = S754_finite s m e).
Proof.
  unfold is_finite, is_nan, is_infinity.
  rewrite !FloatAxioms.eqb_spec, abs_spec.
  destruct (Prim2SF x) as [s|s| |s m e]; simpl; try discriminate; eauto.
  destruct s; vm_compute; discriminate.
Qed.

Lemma sub_diag_finite x : is_finite x = true → x - x = 0.
Proof.
  intros H. apply Prim2SF_inj. rewrite sub_spec.
  destruct (finite_cases x H) as [[s ->]|(s & m & e & ->)].
  - by destruct s.
  - unfold SF64sub, SFsub. by rewrite Z.sub_diag.
Qed.

Lemma positive_cases d :
  (0 <? d) = true →
  Prim2SF d = S754_infinity false ∨ ∃ m e, Prim2SF d = S754_finite false m e.
Proof.
  rewrite ltb_spec. change (Prim2SF 0) with (S754_zero false).
  destruct (Prim2SF d) as [s|s| |s m e]; try destruct s; simpl;
    try discriminate; eauto.
Qed.

Lemma div_zero_positive d : (0 <? d) = true → 0 / d = 0.
Proof.
  intros H. apply Prim2SF_inj. rewrite div_spec.
  change (Prim2SF 0) with (S754_zero false).
  by destruct (positive_cases d H) as [->|(m & e & ->)].
Qed.

Lemma divide_zero_safe d : (0 <? d) = true → unsafe_divide 0 d = false.
Proof.
  intros H. unfold unsafe_divide.
  change (abs 0 * np_tiny) with 0.
  rewrite leb_spec, abs_spec. change (Prim2SF 0) with (S754_zero false).
  by destruct (positive_cases d H) as [->|(m & e & ->)].
Qed.

Lemma SFcompare_antisym (a b : spec_float) :
  SFcompare b a = CompOpp <$> SFcompare a b.
Proof.
  destruct a as [s|s| |s m e], b as [s'|s'| |s' m' e'];
    try destruct s; try destruct s'; simpl; try done.
  all: pose proof (Pos.compare_cont_antisym m m' Eq) as Hm; simpl in Hm;
    rewrite (Z.compare_antisym e e'), <- Hm;
    destruct (e ?= e')%Z; simpl; try done.
Qed.

Lemma leb_not_ltb x y : (y <=? x) = true → (x <? y) = false.
Proof.
  rewrite leb_spec, ltb_spec. unfold SFleb, SFltb.
  rewrite (SFcompare_antisym (Prim2SF x) (Prim2SF y)).
  by destruct (SFcompare (Prim2SF x) (Prim2SF y)) as [[]|].
Qed.

(** A row with a NaN sample sums to NaN. *)
Lemma foldl_add_nan (row : list float) x :
  is_nan x = true → is_nan (foldl add x row) = true.
Proof.
  revert x. induction row as [|y row IH]; intros x H; simpl; [done|].
  apply IH. by apply add_nan_l.
Qed.

Lemma np_sum_nan (row : list float) x :
  x ∈ row → is_nan x = true → is_nan (np_sum row) = true.
Proof.
  unfold np_sum. generalize 0. intros a Hin Hx. revert a.
  induction row as [|y row IH]; intros a; simpl.
  - by apply elem_of_nil in Hin.
  - apply elem_of_cons in Hin as [->|Hin].
    + apply foldl_add_nan. by apply add_nan_r.
    + by apply IH.
Qed.

End Binary64.

Local Close Scope float_scope.

(** ** The error monad and [mapM] *)

Lemma bind_Ok {A C} (a : A) (k : A → res C) : (Ok a ≫= k) = k a.
Proof. done. Qed.

Lemma bind_Raise {A C} (e : exn) (k : A → res C) : (Raise e ≫= k) = Raise e.
Proof. done. Qed.

Section ResMonad.

Context {A B : Type}.
Implicit Types (f g : A → res B) (l : list A).

Lemma mapM_cons f a l :
  mapM f (a :: l) = (y ← f a; k ← mapM f l; Ok (y :: k)).
Proof. done. Qed.

Lemma mapM_res_ext f g l : (∀ a, f a = g a) → mapM f l = mapM g l.
Proof.
  intros Hfg. induction l as [|a l IH]; [done|].
  by rewrite !mapM_cons, Hfg, IH.
Qed.

Lemma mapM_res_length f l k : mapM f l = Ok k → length k = length l.
Proof.
  revert k. induction l as [|a l IH]; intros k.
  - by intros [= <-].
  - rewrite mapM_cons. destruct (f a) as [y|e]; [|done].
    rewrite bind_Ok. destruct (mapM f l) as [k'|e]; [|done].
    rewrite bind_Ok. intros [= <-]. simpl. by rewrite (IH k').
Qed.

End ResMonad.

(** ** Index selection *)

Lemma elem_of_argwhere_from (i : nat) (mask : list bool) (j : nat) :
  j ∈ argwhere_from i mask ↔ ∃ k, j = i + k ∧ mask !! k = Some true.
Proof.
  revert i. induction mask as [|b mask IH]; intros i; simpl.
  - split; [by intros ?%elem_of_nil|by intros (k & _ & ?)].
  - rewrite elem_of_app, IH. split.
    + intros [Hb|(k & -> & Hk)].
      * destruct b; [|by apply elem_of_nil in Hb].
        apply list_elem_of_singleton in Hb as ->. exists 0. split; [lia|done].
      * exists (S k). split; [lia|done].
    + intros ([|k] & -> & Hk); simpl in Hk.
      * left. injection Hk as ->. rewrite Nat.add_0_r. by apply list_elem_of_singleton.
      * right. exists k. split; [lia|done].
Qed.

Lemma elem_of_argwhere (mask : list bool) (j : nat) :
  j ∈ np_argwhere mask ↔ mask !! j = Some true.
Proof.
  unfold np_argwhere. rewrite elem_of_argwhere_from. split.
  - by intros (k & -> & Hk).
  - intros Hj. by exists j.
Qed.

Lemma argwhere_in_range (mask : list bool) :
  Forall (fun j => j < length mask) (np_argwhere mask).
Proof.
  apply Forall_forall. intros j Hj%elem_of_argwhere.
  by apply lookup_lt_Some in Hj.
Qed.

(** ** Writing results into the maps *)

Lemma store_all_scatter (m : maps) (idx : list nat)
    (results : list FitResult) :
  store_all m idx results =
  Maps (scatter (t2_map m) idx (map fit_t2 results))
       (scatter (t2_err m) idx (map fit_t2_err results))
       (scatter (m0_map m) idx (map fit_m0 results))
       (scatter (m0_err m) idx (map fit_m0_err results)).
Proof.
  revert m results. induction idx as [|i idx IH]; intros m results.
  - by destruct m.
  - destruct results as [|r results]; [by destruct m|].
    unfold store_all, scatter in *. simpl. by rewrite IH.
Qed.

Lemma scatter_length (a : list float) (idx : list nat) (vs : list float) :
  length (scatter a idx vs) = length a.
Proof.
  unfold scatter. revert a vs. induction idx as [|i idx IH]; intros a vs.
  - done.
  - destruct vs as [|v vs]; [done|]. simpl.
    by rewrite IH, length_insert.
Qed.

Lemma scatter_lookup_other (a : list float) (idx : list nat)
    (vs : list float) (j : nat) :
  j ∉ idx → scatter a idx vs !! j = a !! j.
Proof.
  unfold scatter. revert a vs. induction idx as [|i idx IH]; intros a vs Hj.
  - done.
  - destruct vs as [|v vs]; [done|]. simpl.
    apply not_elem_of_cons in Hj as [Hne Hj].
    rewrite IH by done. by apply list_lookup_insert_ne.
Qed.

(** ** The two execution paths of [__fit__] *)

Section Scheduler.

Variable np_exp : float → float.
Variable curve_fit :
  (list float → float → float → list float) →
  list float → list float →
  float * float → (float * float) * (float * float) →
  res ((float * float) * ((float * float) * (float * float))).

Local Abbreviation fit_signal := (fit_signal np_exp curve_fit).
Local Abbreviation fit_sequential := (fit_sequential np_exp curve_fit).
Local Abbreviation fit_parallel := (fit_parallel np_exp curve_fit).
Local Abbreviation complete := (complete np_exp curve_fit).
Local Abbreviation future_result := (future_result np_exp curve_fit).
Local Abbreviation outcome := (task_outcome np_exp curve_fit).
Local Abbreviation settled := (resolved_right np_exp curve_fit).
Local Abbreviation fit := (fit np_exp curve_fit).

Implicit Types (signal tasks : list (list float)) (te : list float).
Implicit Types (idx order : list nat) (m : maps).

Lemma submitted_settled tasks te (n : nat) :
  settled tasks te (Pool (replicate n None) 0).
Proof.
  intros j r Hj. simpl in Hj.
  by apply lookup_replicate in Hj as [? _].
Qed.

Lemma complete_settled tasks te p (j : nat) :
  settled tasks te p → settled tasks te (complete tasks te p j).
Proof.
  intros Hp. unfold complete.
  destruct (tasks !! j) as [sig|] eqn:Hsig; [|done].
  destruct (futures p !! j) as [[r|]|] eqn:Hf; try done.
  intros j' r' Hj'. simpl in Hj'.
  destruct (decide (j = j')) as [<-|Hne].
  - rewrite list_lookup_insert_eq in Hj' by (by eapply lookup_lt_Some).
    injection Hj' as <-. unfold task_outcome, row_at. by rewrite Hsig.
  - rewrite list_lookup_insert_ne in Hj' by done. by apply Hp.
Qed.

Lemma workers_settled tasks te order p :
  settled tasks te p →
  settled tasks te (foldl (complete tasks te) p order).
Proof.
  revert p. induction order as [|j order IH]; intros p Hp; [done|].
  simpl. by apply IH, complete_settled.
Qed.

Lemma future_result_outcome tasks te p (j : nat) :
  settled tasks te p →
  future_result tasks te p j = outcome tasks te j.
Proof.
  intros Hp. unfold future_result.
  destruct (futures p !! j) as [[r|]|] eqn:Hf; try done.
  by apply Hp.
Qed.

Lemma outcomes_in_submission_order (pre : list (list float)) tasks te :
  mapM (outcome (pre ++ tasks) te) (seq (length pre) (length tasks))
  = mapM (fun sig => fit_signal sig te) tasks.
Proof.
  revert pre. induction tasks as [|sig tasks IH]; intros pre; [done|].
  simpl seq. rewrite !mapM_cons.
  assert (outcome (pre ++ sig :: tasks) te (length pre)
          = fit_signal sig te) as ->.
  { unfold task_outcome, row_at.
    by rewrite list_lookup_middle. }
  specialize (IH (pre ++ [sig])).
  rewrite length_app, Nat.add_1_r, <- app_assoc in IH. simpl in IH.
  by rewrite IH.
Qed.

(** Collecting [future.result()] over the futures yields the outcomes in
    submission order, whatever the order of completion. *)
Lemma collect_results tasks te order :
  let p := foldl (complete tasks te)
                 (Pool (replicate (length tasks) None) 0) order in
  mapM (future_result tasks te p) (seq 0 (length tasks))
  = mapM (fun sig => fit_signal sig te) tasks.
Proof.
  intros p. rewrite <- (outcomes_in_submission_order [] tasks te).
  apply mapM_res_ext. intros j. apply future_result_outcome.
  apply workers_settled, submitted_settled.
Qed.

Lemma fit_sequential_spec signal te idx m (done : nat) :
  fit_sequential signal te idx m done =
  (results ← mapM (outcome signal te) idx;
   Ok (store_all m idx results, done + length idx)).
Proof.
  revert m done. induction idx as [|ind idx IH]; intros m done.
  - simpl. by rewrite Nat.add_0_r.
  - simpl fit_sequential. rewrite mapM_cons.
    change (outcome signal te ind)
      with (sig ← row_at signal ind; fit_signal sig te).
    destruct (row_at signal ind) as [sig|e]; [|reflexivity].
    rewrite !bind_Ok. destruct (fit_signal sig te) as [r|e]; [|reflexivity].
    rewrite !bind_Ok, IH.
    destruct (mapM (outcome signal te) idx) as [results|e]; [|reflexivity].
    rewrite !bind_Ok. simpl. do 3 f_equal. lia.
Qed.

Lemma submit_all signal te idx :
  Forall (fun i => i < length signal) idx →
  ∃ tasks, mapM (row_at signal) idx = Ok tasks ∧
           mapM (outcome signal te) idx
           = mapM (fun sig => fit_signal sig te) tasks.
Proof.
  induction 1 as [|ind idx Hind _ (tasks & Htasks & IH)].
  - by exists [].
  - apply lookup_lt_is_Some in Hind as [sig Hsig].
    exists (sig :: tasks). rewrite !mapM_cons, Htasks, IH.
    unfold task_outcome, row_at. by rewrite Hsig.
Qed.

(** On a non-empty selection of voxels inside the array, the
    multithreaded branch computes the maps of the single-threaded loop,
    and raises what it raises, for every order of completion. *)
Lemma fit_parallel_sequential signal te idx order m :
  Forall (fun i => i < length signal) idx → idx ≠ [] →
  fit_parallel signal te idx order m
  = (out ← fit_sequential signal te idx m 0; Ok out.1).
Proof.
  intros Hidx Hne. unfold fit_parallel.
  destruct (submit_all signal te idx Hidx) as (tasks & Htasks & Heq).
  rewrite Htasks, bind_Ok, collect_results, fit_sequential_spec, Heq.
  destruct (mapM _ tasks) as [results|e] eqn:Hres; [|done].
  rewrite !bind_Ok. simpl.
  apply mapM_res_length in Hres, Htasks.
  destruct results as [|r results].
  - destruct idx; [done|]. simpl in *. lia.
  - by rewrite store_all_scatter.
Qed.

Lemma fit_modes_agree (n_vox : nat) (mask : list bool) signal te
    order order' :
  length mask = length signal → np_argwhere mask ≠ [] →
  fit n_vox mask signal te true order
  = fit n_vox mask signal te false order'.
Proof.
  intros Hlen Hne. unfold fit.
  pose proof (argwhere_in_range mask) as Hrange. rewrite Hlen in Hrange.
  destruct (np_argwhere mask) as [|i [|i' idx]] eqn:Hw; [done|done|].
  simpl iterate. rewrite !bind_Ok. by apply fit_parallel_sequential.
Qed.

Lemma fit_unselected_zero (n_vox : nat) (mask : list bool) signal te
    (multithread : bool) order m (i : nat) :
  length mask = length signal →
  fit n_vox mask signal te multithread order = Ok m →
  mask !! i ≠ Some true → i < n_vox →
  t2_map m !! i = Some 0%float ∧ t2_err m !! i = Some 0%float ∧
  m0_map m !! i = Some 0%float ∧ m0_err m !! i = Some 0%float.
Proof.
  intros Hlen Hfit Hi Hlt.
  assert (fit n_vox mask signal te false order = Ok m) as Hseq.
  { destruct multithread; [|done].
    destruct (decide (np_argwhere mask = [])) as [Hnil|Hne].
    - unfold fit in Hfit. rewrite Hnil in Hfit. discriminate Hfit.
    - by rewrite <- (fit_modes_agree n_vox mask signal te order order). }
  clear Hfit. unfold fit in Hseq.
  destruct (iterate (squeeze (np_argwhere mask))) as [idx|e] eqn:Hidx;
    [|discriminate Hseq].
  assert (idx = np_argwhere mask) as ->.
  { destruct (np_argwhere mask) as [|j [|j' l]]; simpl in Hidx;
      by try injection Hidx as <-. }
  rewrite bind_Ok, fit_sequential_spec in Hseq.
  destruct (mapM _ _) as [results|e]; [|discriminate Hseq].
  rewrite !bind_Ok in Hseq. injection Hseq as <-.
  rewrite store_all_scatter. simpl.
  assert (i ∉ np_argwhere mask) as Hout by by rewrite elem_of_argwhere.
  rewrite !scatter_lookup_other by done.
  by rewrite lookup_replicate_2.
Qed.

(** C3: a least-squares failure of the optimiser ([RuntimeError]) and a
    converged fit whose T2 is at or above 699 (the upper bound 700 less
    one) both give the all-zero result without raising; a converged fit
    with T2 below 699 gives the fitted T2 and M0 with the square roots of
    the diagonal of the covariance matrix as their errors. *)
Theorem fit_signal_policy (sig te : list float) :
  (curve_fit (two_param_eq np_exp) te sig initial_guess bounds
     = Raise RuntimeError →
   fit_signal sig te = Ok (mkFit 0 0 0 0)) ∧
  (∀ popt pcov,
     curve_fit (two_param_eq np_exp) te sig initial_guess bounds
       = Ok (popt, pcov) →
     (699 <=? popt.1)%float = true →
     fit_signal sig te = Ok (mkFit 0 0 0 0)) ∧
  (∀ popt pcov,
     curve_fit (two_param_eq np_exp) te sig initial_guess bounds
       = Ok (popt, pcov) →
     (popt.1 <? 699)%float = true →
     fit_signal sig te
     = Ok (mkFit popt.1 (sqrt pcov.1.1) popt.2 (sqrt pcov.2.2))).
Proof.
  unfold fit_signal.
  change (bounds.2.1 - 1)%float with 699%float.
  split; [|split].
  - by intros ->.
  - intros popt pcov -> Hge. rewrite bind_Ok. simpl.
    by rewrite (leb_not_ltb _ _ Hge).
  - intros popt pcov -> Hlt. rewrite bind_Ok. simpl. by rewrite Hlt.
Qed.

(** *** [T2.__init__] *)

Local Abbreviation T2_init := (T2_init np_exp curve_fit).
Local Abbreviation T2_outcome := (T2_outcome np_exp curve_fit).

Lemma nan_voxels_length (px : pixel_array) :
  length (nan_voxels px) = length (voxels px).
Proof. unfold nan_voxels. by rewrite length_map. Qed.

Lemma clear_where_length (index a : list bool) :
  length index = length a → length (clear_where index a) = length a.
Proof. intros H. unfold clear_where. rewrite length_zip_with. lia. Qed.

Lemma clear_where_lookup (index a : list bool) (i : nat) :
  clear_where index a !! i
  = (c ← index !! i; b ← a !! i; Some (if c : bool then false else b)).
Proof. unfold clear_where. by rewrite lookup_zip_with. Qed.

Lemma T2_init_caller_mask (px : pixel_array) te (l : loc)
    (mt : multithread_arg) order (h : heap) (mask : list bool) :
  n_te px = length te → mt ≠ MT_other →
  h !! l = Some mask → length mask = length (voxels px) →
  let flat := clear_where (nan_voxels px) mask in
  T2_init px te (Some l) mt order h
  = (<[l := flat]> h, T2_outcome px te l flat mt order).
Proof.
  intros Hte%Nat.eqb_eq Hmt Hl Hlen flat.
  assert (match mt with MT_other => false | _ => true end = true)
    as Hmt' by by destruct mt.
  unfold T2_init, T2_outcome, py_assert. rewrite Hte, Hmt'.
  cbv [mbind M_bind mret M_ret assign_false load lift].
  rewrite Hl, nan_voxels_length, Hlen, Nat.eqb_refl, lookup_insert_eq.
  fold flat. by destruct (fit _ _ _ _ _ _).
Qed.

Lemma T2_init_default_mask (px : pixel_array) te
    (mt : multithread_arg) order (h : heap) :
  n_te px = length te → mt ≠ MT_other →
  let l := fresh (dom h) in
  let flat :=
    clear_where (nan_voxels px) (replicate (length (voxels px)) true) in
  T2_init px te None mt order h
  = (<[l := flat]> h, T2_outcome px te l flat mt order).
Proof.
  intros Hte%Nat.eqb_eq Hmt l flat.
  assert (match mt with MT_other => false | _ => true end = true)
    as Hmt' by by destruct mt.
  unfold T2_init, T2_outcome, py_assert. rewrite Hte, Hmt'.
  cbv [mbind M_bind mret M_ret assign_false load lift np_ones_bool].
  fold l.
  rewrite lookup_insert_eq, nan_voxels_length, length_replicate,
    Nat.eqb_refl, insert_insert_eq, lookup_insert_eq.
  fold flat. by destruct (fit _ _ _ _ _ _).
Qed.

Lemma T2_init_Ok_inv (px : pixel_array) te (mask : option loc)
    (mt : multithread_arg) order (h h' : heap) (obj : T2) :
  T2_init px te mask mt order h = (h', Ok obj) →
  n_te px = length te ∧ mt ≠ MT_other ∧
  match mask with
  | Some l => ∃ mk : list bool,
      h !! l = Some mk ∧ length mk = length (voxels px)
  | None => True
  end.
Proof.
  unfold T2_init, py_assert.
  destruct (n_te px =? length te) eqn:Hte; [|by intros [=]].
  destruct mt; try by intros [=].
  all: intros Hrun; split; [by apply Nat.eqb_eq|]; split; [done|];
    destruct mask as [l|]; [|done];
    cbv [mbind M_bind mret M_ret assign_false load lift] in Hrun;
    destruct (h !! l) as [mk|]; [|by injection Hrun];
    rewrite nan_voxels_length in Hrun;
    destruct (length (voxels px) =? length mk) eqn:Hlen;
      [|by injection Hrun];
    apply Nat.eqb_eq in Hlen; by exists mk.
Qed.

(** Whenever [__init__] returns, the mask it keeps is false at every
    voxel with a NaN sample, and the four maps are zero wherever that
    mask is false. *)
Lemma T2_excluded_positions_zero (px : pixel_array) te
    (mask : option loc) (mt : multithread_arg) order (h h' : heap)
    (obj : T2) :
  T2_init px te mask mt order h = (h', Ok obj) →
  ∃ flat : list bool,
    h' !! self_mask obj = Some flat ∧
    length flat = length (voxels px) ∧
    (∀ i row x, voxels px !! i = Some row → x ∈ row →
                is_nan x = true → flat !! i = Some false) ∧
    (∀ i, flat !! i = Some false →
          t2_map (self_maps obj) !! i = Some 0%float ∧
          t2_err (self_maps obj) !! i = Some 0%float ∧
          m0_map (self_maps obj) !! i = Some 0%float ∧
          m0_err (self_maps obj) !! i = Some 0%float).
Proof.
  intros Hrun.
  destruct (T2_init_Ok_inv _ _ _ _ _ _ _ _ Hrun) as (Hte & Hmt & Hmask).
  assert (∃ l (mk : list bool), length mk = length (voxels px) ∧
            T2_init px te mask mt order h
            = (<[l := clear_where (nan_voxels px) mk]> h,
               T2_outcome px te l (clear_where (nan_voxels px) mk)
                          mt order)) as (l & mk & Hlen & Heq).
  { destruct mask as [l|].
    - destruct Hmask as (mk & Hl & Hlen). exists l, mk. split; [done|].
      by apply T2_init_caller_mask.
    - eexists _, _. split; [|by apply T2_init_default_mask].
      by rewrite length_replicate. }
  rewrite Heq in Hrun. injection Hrun as <- Hout.
  set (flat := clear_where (nan_voxels px) mk) in *.
  unfold T2_outcome in Hout.
  destruct (fit _ _ _ _ _ _) as [ms|e] eqn:Hfit; [|discriminate Hout].
  rewrite bind_Ok in Hout. injection Hout as <-. simpl.
  assert (length flat = length (voxels px)) as Hflat.
  { unfold flat. rewrite clear_where_length; [done|].
    by rewrite nan_voxels_length. }
  exists flat. split; [by rewrite lookup_insert_eq|]. split; [done|]. split.
  - intros i row x Hrow Hx Hnan. unfold flat.
    rewrite clear_where_lookup. unfold nan_voxels.
    rewrite list_lookup_fmap, Hrow. simpl.
    rewrite (np_sum_nan row x Hx Hnan).
    apply lookup_lt_Some in Hrow. rewrite <- Hlen in Hrow.
    apply lookup_lt_is_Some in Hrow as [b ->]. done.
  - intros i Hi. eapply fit_unselected_zero; [exact Hflat|exact Hfit| |].
    + by rewrite Hi.
    + apply lookup_lt_Some in Hi. lia.
Qed.

(** C9: a mask supplied by the caller is not copied.  After the call the
    array behind the caller's reference is the array passed in with every
    voxel whose samples sum to NaN set to false, whether or not the fit
    then succeeds; no other array of the store changes, and the object
    keeps that same reference as its mask. *)
Theorem T2_init_mutates_caller_mask (px : pixel_array) te (l : loc)
    (mt : multithread_arg) order (h : heap) (mask : list bool) :
  n_te px = length te → mt ≠ MT_other →
  h !! l = Some mask → length mask = length (voxels px) →
  let run := T2_init px te (Some l) mt order h in
  run.1 !! l = Some (clear_where (nan_voxels px) mask) ∧
  (∀ i b row, mask !! i = Some b → voxels px !! i = Some row →
     clear_where (nan_voxels px) mask !! i
     = Some (if is_nan (np_sum row) then false else b)) ∧
  (∀ l', l' ≠ l → run.1 !! l' = h !! l') ∧
  (∀ obj, run.2 = Ok obj → self_mask obj = l).
Proof.
  intros Hte Hmt Hl Hlen run. unfold run.
  rewrite (T2_init_caller_mask px te l mt order h mask) by done.
  simpl. split; [by rewrite lookup_insert_eq|]. split; [|split].
  - intros i b row Hb Hrow. rewrite clear_where_lookup.
    unfold nan_voxels. by rewrite list_lookup_fmap, Hrow, Hb.
  - intros l' Hne. by rewrite lookup_insert_ne.
  - intros obj. unfold T2_outcome.
    destruct (fit _ _ _ _ _ _); [|done].
    rewrite bind_Ok. by intros [= <-].
Qed.


(** C1: with no voxel selected (here a caller mask that is false
    everywhere) the single-threaded path returns the four all-zero maps,
    while the multithreaded path raises [ValueError] when it unpacks the
    transposition of an empty list of results. *)
Theorem parallel_fails_on_empty_selection order :
  let px := PixelArray 2 [[1; 2]; [3; 4]]%float in
  let h : heap := {[ 1%positive := [false; false] ]} in
  (T2_init px [10; 20]%float (Some 1%positive) MT_False order h).2
    = Ok (mkT2 2 2 1%positive false (zero_maps 2)) ∧
  (T2_init px [10; 20]%float (Some 1%positive) MT_True order h).2
    = Raise ValueError.
Proof.
  intros px h.
  rewrite !(T2_init_caller_mask px _ 1%positive _ order h [false; false])
    by done.
  by split.
Qed.

(** C4: two voxels, the first with a NaN sample and no caller mask.  The
    first voxel is excluded, one voxel is left to fit, the squeezed index
    array is zero-dimensional, and iterating over it raises [TypeError]
    on either path: no map is produced. *)
Theorem single_selected_voxel_raises order :
  let px := PixelArray 2 [[nan; 1]; [3; 2]]%float in
  nan_voxels px = [true; false] ∧
  (T2_init px [10; 20]%float None MT_False order ∅).2 = Raise TypeError ∧
  (T2_init px [10; 20]%float None MT_True order ∅).2 = Raise TypeError.
Proof.
  intros px.
  rewrite !(T2_init_default_mask px _ _ order ∅) by done.
  by repeat split.
Qed.

End Scheduler.

(** ** The field-map path *)

Lemma convert_to_pi_range_length (a b : list float) :
  convert_to_pi_range a = Ok b → length b = length a.
Proof.
  unfold convert_to_pi_range.
  destruct (np_amax a) as [mx|e]; [|done]. rewrite bind_Ok.
  destruct (margin <? mx)%float; [|by intros [= <-]].
  destruct (np_amin a) as [mn|e]; [|done]. rewrite bind_Ok.
  destruct (mn <? - margin)%float; intros [= <-]; [|done].
  by rewrite length_map.
Qed.

(** What the normaliser does: on a non-empty array it returns, and it
    rescales only when the maximum is above the margin and the minimum is
    below its opposite; in every other case the array comes back as it
    is. *)
Lemma convert_to_pi_range_nonempty (x : float) (a : list float) :
  ∃ b, convert_to_pi_range (x :: a) = Ok b.
Proof.
  unfold convert_to_pi_range. simpl np_amax. rewrite bind_Ok.
  destruct (margin <? _)%float; [|by eexists].
  simpl np_amin. rewrite bind_Ok.
  destruct (_ <? - margin)%float; by eexists.
Qed.

Lemma convert_to_pi_range_unchanged (a : list float) (mx mn : float) :
  np_amax a = Ok mx → np_amin a = Ok mn →
  (margin <? mx)%float && (mn <? - margin)%float = false →
  convert_to_pi_range a = Ok a.
Proof.
  intros Hmx Hmn Hcond. unfold convert_to_pi_range.
  rewrite Hmx, bind_Ok.
  destruct (margin <? mx)%float; [|done].
  rewrite Hmn, bind_Ok.
  change ((mn <? - margin)%float = false) in Hcond. by rewrite Hcond.
Qed.

Lemma build_phase_length (px : pixel_array) (mask : option (list bool))
    (j : nat) (built : marray) :
  build_phase px mask j = Ok built →
  match mask with
  | Some m => length m = length (voxels px)
  | None => True
  end →
  length built = length (voxels px).
Proof.
  unfold build_phase.
  destruct (last_axis px j) as [raw|e] eqn:Hraw; [|done]. rewrite bind_Ok.
  destruct (convert_to_pi_range raw) as [scaled|e] eqn:Hsc; [|done].
  rewrite bind_Ok.
  apply mapM_res_length in Hraw. apply convert_to_pi_range_length in Hsc.
  destruct mask as [m|]; simpl.
  - intros Hb Hm. rewrite Hm, Hsc, Hraw, Nat.eqb_refl in Hb.
    injection Hb as <-. rewrite length_zip_with. lia.
  - intros [= <-] _. rewrite length_map. lia.
Qed.

Lemma build_phase_masked (px : pixel_array) (mask : option (list bool))
    (j : nat) (built : marray) :
  build_phase px mask j = Ok built →
  match mask with
  | Some m =>
      length m = length (voxels px) →
      ∀ i, built !! i = Some None ↔ m !! i = Some true
  | None => ∀ i, built !! i ≠ Some None
  end.
Proof.
  unfold build_phase.
  destruct (last_axis px j) as [raw|e] eqn:Hraw; [|done]. rewrite bind_Ok.
  destruct (convert_to_pi_range raw) as [scaled|e] eqn:Hsc; [|done].
  rewrite bind_Ok.
  apply mapM_res_length in Hraw. apply convert_to_pi_range_length in Hsc.
  destruct mask as [m|]; simpl.
  - intros Hb Hm. rewrite Hm, Hsc, Hraw, Nat.eqb_refl in Hb.
    injection Hb as <-. intros i. rewrite lookup_zip_with.
    destruct (m !! i) as [b|] eqn:Hi.
    + apply lookup_lt_Some in Hi as Hlt.
      rewrite Hm, <- Hraw, <- Hsc in Hlt.
      apply lookup_lt_is_Some in Hlt as [x ->]. simpl.
      destruct b; split; by intros [=].
    + destruct (scaled !! i); simpl; split; by intros [=].
  - intros [= <-] i. rewrite list_lookup_fmap.
    by destruct (raw !! i), (scaled !! i).
Qed.

Section FieldMapFacts.

Variable unwrap_phase : marray → bool → res marray.

Local Abbreviation B0_init := (B0_init unwrap_phase).

Implicit Types (px : pixel_array) (te : list float).
Implicit Types (mask : option (list bool)) (obj : B0).

(** The steps a successful [B0.__init__] has gone through. *)
Lemma B0_init_Ok_inv px te mask (unwrap wrap_around : bool) obj :
  B0_init px te mask unwrap wrap_around = Ok obj →
  ∃ echo0 echo1 built0 built1 diff,
    te = [echo0; echo1] ∧ n_te px = 2 ∧
    build_phase px mask 0 = Ok built0 ∧
    build_phase px mask 1 = Ok built1 ∧
    (if unwrap then unwrap_phase built0 wrap_around else Ok built0)
      = Ok (phase0 obj) ∧
    (if unwrap then unwrap_phase built1 wrap_around else Ok built1)
      = Ok (phase1 obj) ∧
    ma_subtract (phase1 obj) (phase0 obj) = Ok diff ∧
    delta_te obj = (abs (echo1 - echo0) * milli)%float ∧
    phase_difference obj = diff ∧
    b0_map obj = ma_true_divide diff (2 * np_pi * delta_te obj)%float.
Proof.
  unfold B0_init.
  destruct (n_te px =? length te) eqn:Hlen; [|done].
  destruct (n_te px =? 2) eqn:Hn; [|done]. simpl.
  destruct te as [|echo0 [|echo1 [|]]]; try done.
  destruct (build_phase px mask 0) as [built0|e]; [|done].
  rewrite bind_Ok.
  destruct (build_phase px mask 1) as [built1|e]; [|done].
  rewrite bind_Ok.
  destruct (if unwrap then unwrap_phase built0 _ else _) as [p0|e] eqn:Hp0;
    [|done].
  rewrite bind_Ok.
  destruct (if unwrap then unwrap_phase built1 _ else _) as [p1|e] eqn:Hp1;
    [|done].
  rewrite bind_Ok.
  destruct (ma_subtract p1 p0) as [diff|e] eqn:Hd; [|done].
  rewrite bind_Ok. intros [= <-]. simpl.
  exists echo0, echo1, built0, built1, diff.
  apply Nat.eqb_eq in Hn. by repeat split.
Qed.

(** C5: unless the array holds exactly two phase volumes and exactly two
    echo times are given, [B0.__init__] raises [ValueError] and returns
    no object, hence no field map. *)
Theorem B0_requires_two_echoes px te mask (unwrap wrap_around : bool) :
  ¬ (n_te px = 2 ∧ length te = 2) →
  B0_init px te mask unwrap wrap_around = Raise ValueError.
Proof.
  intros Hnot. unfold B0_init.
  destruct (n_te px =? length te) eqn:Hlen; [|done].
  destruct (n_te px =? 2) eqn:Hn; [|done].
  apply Nat.eqb_eq in Hlen, Hn. destruct Hnot. lia.
Qed.


(** C8 (as amended): for two identical phase volumes and echo times for
    which [2 * pi * delta_te] is positive, the field map is exactly zero
    at every position whose phase value is valid and finite. *)
Theorem identical_phases_zero_field_map px te mask
    (unwrap wrap_around : bool) obj :
  B0_init px te mask unwrap wrap_around = Ok obj →
  last_axis px 0 = last_axis px 1 →
  (0 <? 2 * np_pi * delta_te obj)%float = true →
  ∀ i x, phase0 obj !! i = Some (Some x) → is_finite x = true →
         b0_map obj !! i = Some (Some 0%float).
Proof.
  intros (echo0 & echo1 & built0 & built1 & diff & _ & _ & Hb0 & Hb1 & Hp0
          & Hp1 & Hsub & _ & _ & Hmap)%B0_init_Ok_inv Hsame Hpos i x Hx Hfin.
  assert (built0 = built1) as <-.
  { unfold build_phase in Hb0, Hb1. rewrite Hsame, Hb1 in Hb0.
    by injection Hb0. }
  assert (phase1 obj = phase0 obj) as Heq.
  { rewrite Hp0 in Hp1. by injection Hp1. }
  rewrite Heq in Hsub. unfold ma_subtract in Hsub.
  rewrite Nat.eqb_refl in Hsub. injection Hsub as <-.
  rewrite Hmap. unfold ma_true_divide.
  rewrite list_lookup_fmap, lookup_zip_with, Hx.
  unfold ma_entry_divide. simpl in Hpos |- *.
  rewrite (sub_diag_finite x Hfin), (div_zero_positive _ Hpos).
  by rewrite (divide_zero_safe _ Hpos).
Qed.


End FieldMapFacts.

(** ** The routines on concrete inputs *)

(** C7: on the array [[0, 10]] the maximum is above 3.2 but the minimum
    is not below -3.2, so the array is returned as it is, with 10 outside
    [-pi, pi]; on an empty array the reduction raises [ValueError]; an
    array with values beyond both margins is rescaled onto [-pi, pi]. *)
Theorem convert_to_pi_range_one_sided :
  convert_to_pi_range [0; 10]%float = Ok [0; 10]%float ∧
  convert_to_pi_range [] = Raise ValueError ∧
  convert_to_pi_range [-4; 0; 4]%float = Ok [- np_pi; 0; np_pi]%float.
Proof. by repeat split. Qed.

(** The stand-in optimiser on three signals: a reported failure, a fit
    pinned above the bound, and an accepted fit. *)
Lemma fit_signal_policy_witness :
  fit_signal example_exp example_curve_fit [-1; 1]%float [10; 20]%float
    = Ok (mkFit 0 0 0 0) ∧
  fit_signal example_exp example_curve_fit [750; 1]%float [10; 20]%float
    = Ok (mkFit 0 0 0 0) ∧
  fit_signal example_exp example_curve_fit [50; 30]%float [10; 20]%float
    = Ok (mkFit 50 2 5000 3).
Proof.
  split; [|split].
  - by apply (fit_signal_policy example_exp example_curve_fit).
  - by apply (proj1 (proj2 (fit_signal_policy example_exp example_curve_fit
                              [750; 1]%float [10; 20]%float))
                (750, 5000)%float ((4, 0), (0, 9))%float).
  - by apply (proj2 (proj2 (fit_signal_policy example_exp example_curve_fit
                              [50; 30]%float [10; 20]%float))
                (50, 5000)%float ((4, 0), (0, 9))%float).
Defined.

(** Three voxels, the second with a NaN sample, and a caller mask that
    selects the first two: after the call the caller's array has lost the
    second voxel. *)
Lemma T2_init_mutates_caller_mask_witness :
  let h : heap := {[ 7%positive := [true; true; false] ]} in
  let run := T2_init example_exp example_curve_fit example_px3
               [10; 20]%float (Some 7%positive) MT_False [] h in
  run.1 !! 7%positive = Some [true; false; false] ∧
  h !! 7%positive = Some [true; true; false].
Proof.
  intros h run. split; [|done].
  by apply (T2_init_mutates_caller_mask example_exp example_curve_fit
              example_px3 [10; 20]%float 7%positive MT_False [] h
              [true; true; false]).
Defined.


(** Three phase volumes with three echo times, and one with one. *)
Lemma B0_requires_two_echoes_witness :
  B0_init example_unwrap (PixelArray 3 [[1; 2; 3]]%float) [5; 7; 9]%float
    None true false = Raise ValueError ∧
  B0_init example_unwrap (PixelArray 1 [[1]]%float) [5]%float
    None true false = Raise ValueError.
Proof.
  split; apply B0_requires_two_echoes; simpl; lia.
Defined.


(** The same phase volume twice, echo times 5 ms and 7 ms. *)
Lemma identical_phases_zero_field_map_witness :
  ∃ obj,
    B0_init example_unwrap example_phases [5; 7]%float None false false
      = Ok obj ∧
    b0_map obj !! 0 = Some (Some 0%float) ∧
    b0_map obj !! 1 = Some (Some 0%float).
Proof.
  eexists. split; [reflexivity|].
  split.
  - by apply (identical_phases_zero_field_map example_unwrap example_phases
                [5; 7]%float None false false _ eq_refl eq_refl eq_refl
                0 1%float).
  - by apply (identical_phases_zero_field_map example_unwrap example_phases
                [5; 7]%float None false false _ eq_refl eq_refl eq_refl
                1 2%float).
Defined.

(** C8: the same phase volume twice and two equal echo times.
    [delta_te] is zero, every quotient is [0 / 0], and every entry of the
    field map is masked. *)
Lemma identical_phases_equal_echo_times : ¬ identical_phases_zero_everywhere.
Proof.
  intros H.
  specialize (H example_unwrap example_phases [5; 5]%float None false false
                _ eq_refl eq_refl 0).
  simpl in H. specialize (H ltac:(lia)). discriminate H.
Qed.

(** C6: a phase difference of 0.5 rad with two equal echo times.
    [delta_te] is zero, the quotient [0.5 / 0] is infinite, and the entry
    of the field map is masked instead. *)
Lemma quotient_masked_at_equal_echo_times : ¬ field_map_is_the_quotient.
Proof.
  intros H.
  specialize (H example_unwrap (PixelArray 2 [[1; 1]; [2; 2.5]]%float)
                [5; 5]%float None false false _ eq_refl 1 0.5%float eq_refl).
  vm_compute in H. discriminate H.
Qed.


(** C10: three voxels of which the mask marks the first.  With -4 at the
    marked voxel the values 0 and 4 of the others are rescaled to 0 and
    pi; with -8 there the value 0 is rescaled to pi / 3: the marked voxel
    takes part in the normalisation. *)
Lemma masked_voxel_drives_rescaling :
  ¬ masked_voxels_excluded_from_normalization.
Proof.
  intros H.
  assert (∀ i, [true; false; false] !! i = Some false →
               [[-4; -4]; [0; 0]; [4; 4]]%float !! i
               = [[-8; -8]; [0; 0]; [4; 4]]%float !! i) as Hsame
    by by intros [|[|[|i]]].
  epose proof (H (PixelArray 2 [[-4; -4]; [0; 0]; [4; 4]]%float)
                 (PixelArray 2 [[-8; -8]; [0; 0]; [4; 4]]%float)
                 [true; false; false] 0 _ _ eq_refl eq_refl Hsame
                 eq_refl eq_refl) as Hbuilt.
  clear H. rename Hbuilt into H.
  apply (f_equal (fun built : marray =>
                    match built !! 1 with
                    | Some (Some x) => (x =? 0)%float
                    | _ => false
                    end)) in H.
  vm_compute in H. discriminate H.
Qed.

(** * Further properties of the fitting engine *)

Lemma argwhere_from_ge (i : nat) (mask : list bool) (j : nat) :
  j ∈ argwhere_from i mask → i ≤ j.
Proof. intros (k & -> & _)%elem_of_argwhere_from. lia. Qed.

Lemma argwhere_from_NoDup (i : nat) (mask : list bool) :
  NoDup (argwhere_from i mask).
Proof.
  revert i. induction mask as [|b mask IH]; intros i; simpl.
  - apply NoDup_nil_2.
  - apply NoDup_app. split; [|split; [|apply IH]].
    + destruct b; [apply NoDup_singleton|apply NoDup_nil_2].
    + intros j Hj Hj'. apply argwhere_from_ge in Hj'.
      destruct b; [|by apply elem_of_nil in Hj].
      apply list_elem_of_singleton in Hj. lia.
Qed.

Lemma argwhere_NoDup (mask : list bool) : NoDup (np_argwhere mask).
Proof. apply argwhere_from_NoDup. Qed.

Lemma scatter_lookup_selected (a : list float) (idx : list nat)
    (vs : list float) (j i : nat) (v : float) :
  NoDup idx → idx !! j = Some i → vs !! j = Some v → i < length a →
  scatter a idx vs !! i = Some v.
Proof.
  unfold scatter. revert a vs j.
  induction idx as [|i0 idx IH]; intros a vs j Hnd Hi Hv Hlt; [done|].
  destruct vs as [|v0 vs]; [done|].
  apply NoDup_cons in Hnd as [Hnotin Hnd]. simpl.
  destruct j as [|j]; simpl in Hi, Hv.
  - injection Hi as ->. injection Hv as ->.
    pose proof (scatter_lookup_other (<[i:=v]> a) idx vs i Hnotin) as Hs.
    unfold scatter in Hs. rewrite Hs. by apply list_lookup_insert_eq.
  - apply (IH _ _ j); try done. by rewrite length_insert.
Qed.

Lemma mapM_res_lookup {A B} (f : A → res B) (l : list A) (k : list B)
    (j : nat) (a : A) :
  mapM f l = Ok k → l !! j = Some a → ∃ b, k !! j = Some b ∧ f a = Ok b.
Proof.
  revert k j. induction l as [|a0 l IH]; intros k j Hk Hj; [done|].
  rewrite mapM_cons in Hk.
  destruct (f a0) as [b0|e] eqn:Hb0; [|done]. rewrite bind_Ok in Hk.
  destruct (mapM f l) as [k'|e]; [|done]. rewrite bind_Ok in Hk.
  injection Hk as <-. destruct j as [|j]; simpl in Hj.
  - injection Hj as <-. by exists b0.
  - by apply (IH k' j).
Qed.

Lemma mapM_res_all_Ok {A B} (f : A → res B) (l : list A) :
  Forall (fun a => ∃ b, f a = Ok b) l → ∃ k, mapM f l = Ok k.
Proof.
  induction 1 as [|a l [b Hb] _ [k Hk]]; [by exists []|].
  exists (b :: k). by rewrite mapM_cons, Hb, bind_Ok, Hk.
Qed.

Lemma mapM_res_first_raise {A B} (f : A → res B) (pre post : list A)
    (a : A) (e : exn) :
  Forall (fun a => ∃ b, f a = Ok b) pre → f a = Raise e →
  mapM f (pre ++ a :: post) = Raise e.
Proof.
  induction 1 as [|a0 pre [b Hb] _ IH]; intros Ha; simpl app.
  - by rewrite mapM_cons, Ha.
  - by rewrite mapM_cons, Hb, bind_Ok, IH.
Qed.

Lemma M_bind_ext {A B} (m : M A) (k k' : A → M B) (h : heap) :
  (∀ a h', k a h' = k' a h') → (m ≫= k) h = (m ≫= k') h.
Proof.
  intros Hk. unfold mbind, M_bind. by destruct (m h) as [h' [a|e]].
Qed.

Lemma finished_length_le {A} (slots : list (option A)) :
  length (finished slots) ≤ length slots.
Proof.
  induction slots as [|[a|] slots IH]; simpl; lia.
Qed.

Lemma finished_resolve {A} (slots : list (option A)) (j : nat) (a : A) :
  slots !! j = Some None →
  length (finished (<[j := Some a]> slots)) = S (length (finished slots)).
Proof.
  revert j.
  induction slots as [|s slots IH]; intros j Hj; [done|].
  destruct j as [|j]; simpl in Hj.
  - by injection Hj as ->.
  - specialize (IH j Hj). destruct s; simpl in *; lia.
Qed.

Lemma finished_all {A} (slots : list (option A)) :
  (∀ j, j < length slots → ∃ a, slots !! j = Some (Some a)) →
  length (finished slots) = length slots.
Proof.
  induction slots as [|s slots IH]; intros Hall; [done|].
  destruct (Hall 0) as [a Ha]; [simpl; lia|]. simpl in Ha.
  injection Ha as ->. simpl. f_equal. apply IH.
  intros j Hj. apply (Hall (S j)). simpl. lia.
Qed.

Section FittingFacts.

Variable np_exp : float → float.
Variable curve_fit :
  (list float → float → float → list float) →
  list float → list float →
  float * float → (float * float) * (float * float) →
  res ((float * float) * ((float * float) * (float * float))).

Local Abbreviation fit_signal := (fit_signal np_exp curve_fit).
Local Abbreviation fit_sequential := (fit_sequential np_exp curve_fit).
Local Abbreviation fit_parallel := (fit_parallel np_exp curve_fit).
Local Abbreviation complete := (complete np_exp curve_fit).
Local Abbreviation outcome := (task_outcome np_exp curve_fit).
Local Abbreviation fit := (fit np_exp curve_fit).
Local Abbreviation T2_init := (T2_init np_exp curve_fit).
Local Abbreviation T2_outcome := (T2_outcome np_exp curve_fit).

Implicit Types (signal tasks : list (list float)) (te : list float).
Implicit Types (idx order : list nat) (m : maps) (px : pixel_array).

(** A successful [__fit__] has fitted every selected voxel, in index
    order, and stored the results one after the other. *)
Lemma fit_Ok_form (n_vox : nat) (mask : list bool) signal te
    (multithread : bool) order m :
  length mask = length signal →
  fit n_vox mask signal te multithread order = Ok m →
  ∃ results,
    mapM (outcome signal te) (np_argwhere mask) = Ok results ∧
    m = store_all (zero_maps n_vox) (np_argwhere mask) results.
Proof.
  intros Hlen Hfit.
  assert (fit n_vox mask signal te false order = Ok m) as Hseq.
  { destruct multithread; [|done].
    destruct (decide (np_argwhere mask = [])) as [Hnil|Hne].
    - unfold fit in Hfit. rewrite Hnil in Hfit. discriminate Hfit.
    - by rewrite <- (fit_modes_agree np_exp curve_fit n_vox mask signal te
                       order order). }
  clear Hfit. unfold fit in Hseq.
  destruct (iterate (squeeze (np_argwhere mask))) as [idx|e] eqn:Hidx;
    [|discriminate Hseq].
  assert (idx = np_argwhere mask) as ->.
  { destruct (np_argwhere mask) as [|j [|j' l]]; simpl in Hidx;
      by try injection Hidx as <-. }
  rewrite bind_Ok, fit_sequential_spec in Hseq.
  destruct (mapM _ _) as [results|e]; [|discriminate Hseq].
  rewrite !bind_Ok in Hseq. injection Hseq as <-. by exists results.
Qed.

Lemma fit_order_irrelevant (n_vox : nat) (mask : list bool) signal te
    (multithread : bool) order order' :
  fit n_vox mask signal te multithread order
  = fit n_vox mask signal te multithread order'.
Proof.
  unfold fit. destruct multithread; [|done].
  destruct (iterate _) as [idx|e]; [|done]. rewrite !bind_Ok.
  unfold fit_parallel.
  destruct (mapM (row_at signal) idx) as [tasks|e]; [|done].
  rewrite !bind_Ok.
  pose proof (collect_results np_exp curve_fit tasks te order) as H1.
  pose proof (collect_results np_exp curve_fit tasks te order') as H2.
  simpl in H1, H2. by rewrite H1, H2.
Qed.

(** What a successful [__init__] has done: settled the mask [flat] behind
    the object's reference, and fitted on it. *)
Lemma T2_init_Ok_fit px te (mask : option loc) (mt : multithread_arg)
    order (h h' : heap) (obj : T2) :
  T2_init px te mask mt order h = (h', Ok obj) →
  ∃ mk : list bool,
    length mk = length (voxels px) ∧
    match mask with
    | Some l => h !! l = Some mk ∧ self_mask obj = l
    | None => mk = replicate (length (voxels px)) true ∧
              self_mask obj = fresh (dom h)
    end ∧
    h' = <[self_mask obj := clear_where (nan_voxels px) mk]> h ∧
    self_n_vox obj = length (voxels px) ∧
    self_multithread obj = resolve_multithread mt (length (voxels px)) ∧
    fit (length (voxels px)) (clear_where (nan_voxels px) mk) (voxels px)
        te (resolve_multithread mt (length (voxels px))) order
    = Ok (self_maps obj).
Proof.
  intros Hrun.
  destruct (T2_init_Ok_inv _ _ _ _ _ _ _ _ _ _ Hrun) as (Hte & Hmt & Hmask).
  destruct mask as [l|].
  - destruct Hmask as (mk & Hl & Hlen). exists mk.
    rewrite (T2_init_caller_mask _ _ px te l mt order h mk) in Hrun by done.
    injection Hrun as <- Hout. unfold T2_outcome in Hout.
    destruct (fit _ _ _ _ _ _) as [ms|e]; [|discriminate Hout].
    rewrite bind_Ok in Hout. by injection Hout as <-.
  - exists (replicate (length (voxels px)) true).
    rewrite (T2_init_default_mask _ _ px te mt order h) in Hrun by done.
    injection Hrun as <- Hout. unfold T2_outcome in Hout.
    destruct (fit _ _ _ _ _ _) as [ms|e]; [|discriminate Hout].
    rewrite bind_Ok in Hout. injection Hout as <-. simpl.
    by rewrite length_replicate.
Qed.

(** X1: the store, the object and the exception [__init__] ends with do
    not depend on the order in which the worker processes finish. *)
Theorem completion_order_irrelevant px te (mask : option loc)
    (mt : multithread_arg) order order' (h : heap) :
  T2_init px te mask mt order h = T2_init px te mask mt order' h.
Proof.
  unfold T2_init.
  repeat (apply M_bind_ext; intros).
  by rewrite (fit_order_irrelevant _ _ _ _ _ order order').
Qed.

(** X2: when the mask selects at least one voxel of the array, the
    multithreaded branch of [__fit__] returns the maps of the
    single-threaded loop, or raises the exception it raises, whatever the
    orders of completion. *)
Theorem parallel_agrees_with_sequential (n_vox : nat) (mask : list bool)
    signal te order order' :
  length mask = length signal → np_argwhere mask ≠ [] →
  fit n_vox mask signal te true order
  = fit n_vox mask signal te false order'.
Proof.
  intros Hlen Hne.
  destruct (np_argwhere mask) as [|i idx] eqn:Hidx; [done|].
  apply fit_modes_agree; [exact Hlen|]. by rewrite Hidx.
Qed.

(** X3: when [__init__] returns, a voxel that the caller's mask leaves
    out, or one of whose samples is NaN, holds 0 in all four maps. *)
Theorem excluded_voxels_are_zero px te (mask : option loc)
    (mt : multithread_arg) order (h h' : heap) (obj : T2) (i : nat) :
  T2_init px te mask mt order h = (h', Ok obj) →
  (∃ l (mk : list bool),
     mask = Some l ∧ h !! l = Some mk ∧ mk !! i = Some false) ∨
  (∃ row x, voxels px !! i = Some row ∧ x ∈ row ∧ is_nan x = true) →
  t2_map (self_maps obj) !! i = Some 0%float ∧
  t2_err (self_maps obj) !! i = Some 0%float ∧
  m0_map (self_maps obj) !! i = Some 0%float ∧
  m0_err (self_maps obj) !! i = Some 0%float.
Proof.
  intros Hrun Hexcl.
  destruct (T2_init_Ok_fit _ _ _ _ _ _ _ _ Hrun)
    as (mk & Hlen & Hmask & _ & _ & _ & Hfit).
  assert (length (clear_where (nan_voxels px) mk) = length (voxels px))
    as Hflat.
  { rewrite clear_where_length; [done|]. by rewrite nan_voxels_length. }
  assert (clear_where (nan_voxels px) mk !! i = Some false) as Hi.
  { rewrite clear_where_lookup. unfold nan_voxels. rewrite list_lookup_fmap.
    destruct Hexcl as [(l & mk' & -> & Hl & Hmk)|(row & x & Hrow & Hx & Hnan)].
    - destruct Hmask as [Hl' _]. rewrite Hl in Hl'. injection Hl' as ->.
      apply lookup_lt_Some in Hmk as Hlt. rewrite Hlen in Hlt.
      apply lookup_lt_is_Some in Hlt as [row Hrow].
      rewrite Hrow, Hmk. simpl. by destruct (is_nan _).
    - rewrite Hrow. simpl. rewrite (np_sum_nan row x Hx Hnan).
      apply lookup_lt_Some in Hrow. rewrite <- Hlen in Hrow.
      by apply lookup_lt_is_Some in Hrow as [b ->]. }
  eapply fit_unselected_zero; [exact Hflat|exact Hfit| |].
  - by rewrite Hi.
  - apply lookup_lt_Some in Hi. lia.
Qed.

(** X4: when [__init__] returns, every voxel the settled mask selects
    holds, in the four maps, the result of fitting that voxel's own
    signal. *)
Theorem selected_voxels_hold_their_fit px te (mask : option loc)
    (mt : multithread_arg) order (h h' : heap) (obj : T2)
    (flat : list bool) (i : nat) :
  T2_init px te mask mt order h = (h', Ok obj) →
  h' !! self_mask obj = Some flat → flat !! i = Some true →
  ∃ sig r,
    voxels px !! i = Some sig ∧ fit_signal sig te = Ok r ∧
    t2_map (self_maps obj) !! i = Some (fit_t2 r) ∧
    t2_err (self_maps obj) !! i = Some (fit_t2_err r) ∧
    m0_map (self_maps obj) !! i = Some (fit_m0 r) ∧
    m0_err (self_maps obj) !! i = Some (fit_m0_err r).
Proof.
  intros Hrun Hflat Hi.
  destruct (T2_init_Ok_fit _ _ _ _ _ _ _ _ Hrun)
    as (mk & Hlen & _ & -> & _ & _ & Hfit).
  rewrite lookup_insert_eq in Hflat. injection Hflat as <-.
  assert (length (clear_where (nan_voxels px) mk) = length (voxels px))
    as Hflen.
  { rewrite clear_where_length; [done|]. by rewrite nan_voxels_length. }
  destruct (fit_Ok_form _ _ _ _ _ _ _ Hflen Hfit) as (results & Hres & ->).
  apply elem_of_argwhere in Hi as Hsel.
  apply list_elem_of_lookup in Hsel as [j Hj].
  destruct (mapM_res_lookup _ _ _ _ _ Hres Hj) as (r & Hr & Hout).
  unfold task_outcome, row_at in Hout.
  destruct (voxels px !! i) as [sig|] eqn:Hsig; [|done].
  rewrite bind_Ok in Hout. exists sig, r. split; [done|]. split; [done|].
  rewrite store_all_scatter. simpl.
  apply lookup_lt_Some in Hsig.
  repeat split; apply (scatter_lookup_selected _ _ _ j);
    try apply argwhere_NoDup; try done;
    try (by rewrite list_lookup_fmap, Hr);
    by rewrite length_replicate.
Qed.

(** X5: when [__init__] returns, each of the four maps has one entry per
    voxel of the array. *)
Theorem maps_have_the_shape_of_the_array px te (mask : option loc)
    (mt : multithread_arg) order (h h' : heap) (obj : T2) :
  T2_init px te mask mt order h = (h', Ok obj) →
  length (t2_map (self_maps obj)) = length (voxels px) ∧
  length (t2_err (self_maps obj)) = length (voxels px) ∧
  length (m0_map (self_maps obj)) = length (voxels px) ∧
  length (m0_err (self_maps obj)) = length (voxels px).
Proof.
  intros Hrun.
  destruct (T2_init_Ok_fit _ _ _ _ _ _ _ _ Hrun)
    as (mk & Hlen & _ & _ & _ & _ & Hfit).
  assert (length (clear_where (nan_voxels px) mk) = length (voxels px))
    as Hflen.
  { rewrite clear_where_length; [done|]. by rewrite nan_voxels_length. }
  destruct (fit_Ok_form _ _ _ _ _ _ _ Hflen Hfit) as (results & _ & ->).
  rewrite store_all_scatter. simpl.
  by rewrite !scatter_length, length_replicate.
Qed.

Lemma fit_signal_returns (sig te : list float) :
  curve_fit (two_param_eq np_exp) te sig initial_guess bounds
    = Raise RuntimeError ∨
  (∃ fitted, curve_fit (two_param_eq np_exp) te sig initial_guess bounds
             = Ok fitted) →
  ∃ r, fit_signal sig te = Ok r.
Proof.
  unfold fit_signal. intros [->|[fitted ->]]; rewrite bind_Ok;
    destruct (_ <? _)%float; by eexists.
Qed.

Lemma at_least_two_iterate (idx : list nat) :
  2 ≤ length idx → iterate (squeeze idx) = Ok idx.
Proof. destruct idx as [|i [|i' idx]]; simpl; [lia|lia|done]. Qed.

Lemma fit_returns (n_vox : nat) (mask : list bool) signal te
    (multithread : bool) order :
  length mask = length signal →
  2 ≤ length (np_argwhere mask) →
  (∀ i sig, mask !! i = Some true → signal !! i = Some sig →
            ∃ r, fit_signal sig te = Ok r) →
  ∃ m, fit n_vox mask signal te multithread order = Ok m.
Proof.
  intros Hlen Htwo Hall.
  assert (∃ m, fit n_vox mask signal te false order = Ok m) as [m Hm].
  { unfold fit. rewrite (at_least_two_iterate _ Htwo), bind_Ok.
    rewrite fit_sequential_spec.
    destruct (mapM_res_all_Ok (outcome signal te) (np_argwhere mask))
      as [results ->]; [|by eexists].
    apply Forall_forall. intros i Hi%elem_of_argwhere.
    apply lookup_lt_Some in Hi as Hlt. rewrite Hlen in Hlt.
    apply lookup_lt_is_Some in Hlt as [sig Hsig].
    unfold task_outcome, row_at. rewrite Hsig, bind_Ok. by eapply Hall. }
  exists m. destruct multithread; [|done].
  rewrite <- Hm. apply fit_modes_agree; [done|].
  intros Hnil. rewrite Hnil in Htwo. simpl in Htwo. lia.
Qed.



Lemma clear_where_idempotent (index a : list bool) :
  clear_where index (clear_where index a) = clear_where index a.
Proof.
  apply list_eq. intros i. rewrite !clear_where_lookup.
  destruct (index !! i) as [[]|], (a !! i) as [[]|]; done.
Qed.

Lemma clear_where_shrinks (index a : list bool) (i : nat) :
  clear_where index a !! i = Some true →
  a !! i = Some true ∧ index !! i = Some false.
Proof.
  rewrite clear_where_lookup.
  destruct (index !! i) as [[]|], (a !! i) as [[]|]; done.
Qed.

(** X8: on a caller's mask [__init__] only ever turns entries off: an
    entry that is true afterwards was true before and belongs to a voxel
    whose samples do not sum to NaN.  A second call on the same array and
    mask leaves the mask as the first call left it. *)
Theorem caller_mask_only_shrinks px te (l : loc)
    (mt mt' : multithread_arg) order order' (h : heap) (mk : list bool) :
  n_te px = length te → mt ≠ MT_other → mt' ≠ MT_other →
  h !! l = Some mk → length mk = length (voxels px) →
  let h1 := (T2_init px te (Some l) mt order h).1 in
  (∃ flat, h1 !! l = Some flat ∧
           ∀ i, flat !! i = Some true →
                mk !! i = Some true ∧ nan_voxels px !! i = Some false) ∧
  (T2_init px te (Some l) mt' order' h1).1 = h1.
Proof.
  intros Hte Hmt Hmt' Hl Hlen h1. unfold h1.
  rewrite (T2_init_caller_mask _ _ px te l mt order h mk) by done.
  simpl. split.
  - eexists. split; [by rewrite lookup_insert_eq|].
    intros i Hi. by apply clear_where_shrinks.
  - rewrite (T2_init_caller_mask _ _ px te l mt' order' _
               (clear_where (nan_voxels px) mk)).
    + simpl. by rewrite clear_where_idempotent, insert_insert_eq.
    + done.
    + done.
    + by rewrite lookup_insert_eq.
    + rewrite clear_where_length; [done|]. by rewrite nan_voxels_length.
Qed.

Lemma clear_where_ones (index : list bool) :
  clear_where index (replicate (length index) true) = map negb index.
Proof.
  apply list_eq. intros i.
  rewrite clear_where_lookup, list_lookup_fmap.
  destruct (index !! i) as [c|] eqn:Hi; [|done].
  apply lookup_lt_Some in Hi.
  rewrite lookup_replicate_2 by done. by destruct c.
Qed.

(** X9: with no caller mask [__init__] allocates its own: every array
    already in the store is left as it was, the object's mask is a
    reference that was not in use, and the array behind it is true exactly
    at the voxels whose samples do not sum to NaN. *)
Theorem default_mask_is_fresh px te (mt : multithread_arg) order
    (h : heap) :
  n_te px = length te → mt ≠ MT_other →
  let run := T2_init px te None mt order h in
  (∀ l a, h !! l = Some a → run.1 !! l = Some a) ∧
  (∀ obj, run.2 = Ok obj →
          h !! self_mask obj = None ∧
          run.1 !! self_mask obj = Some (map negb (nan_voxels px))).
Proof.
  intros Hte Hmt run. unfold run.
  rewrite (T2_init_default_mask _ _ px te mt order h) by done. simpl.
  assert (h !! fresh (dom h) = None) as Hfresh.
  { apply not_elem_of_dom, is_fresh. }
  split.
  - intros l a Hl. rewrite lookup_insert_ne; [done|].
    intros <-. by rewrite Hfresh in Hl.
  - intros obj. unfold T2_outcome.
    destruct (fit _ _ _ _ _ _); [|done]. rewrite bind_Ok.
    intros [= <-]. simpl. split; [done|].
    rewrite lookup_insert_eq. f_equal.
    rewrite <- (nan_voxels_length px). apply clear_where_ones.
Qed.

(** X10: when at least two voxels are selected and the fit of one of
    them raises while the fits of all selected voxels before it return,
    [__fit__] raises that exception, on either path and whatever the later
    voxels do. *)
Theorem first_failing_voxel_raises (n_vox : nat) (mask : list bool)
    signal te (multithread : bool) order (pre post : list nat) (i : nat)
    (sig : list float) (e : exn) :
  length mask = length signal →
  np_argwhere mask = pre ++ i :: post → pre ++ post ≠ [] →
  (∀ j sg, j ∈ pre → signal !! j = Some sg →
           ∃ r, fit_signal sg te = Ok r) →
  signal !! i = Some sig → fit_signal sig te = Raise e →
  fit n_vox mask signal te multithread order = Raise e.
Proof.
  intros Hlen Hidx Hmore Hpre Hsig Hraise.
  assert (fit n_vox mask signal te false order = Raise e) as Hseq.
  { unfold fit. rewrite at_least_two_iterate, bind_Ok.
    - rewrite fit_sequential_spec, Hidx.
      rewrite (mapM_res_first_raise _ pre post i e); [done| |].
      + apply Forall_forall. intros j Hj.
        assert (j ∈ np_argwhere mask) as Hsel.
        { rewrite Hidx. apply elem_of_app. by left. }
        apply elem_of_argwhere, lookup_lt_Some in Hsel.
        rewrite Hlen in Hsel. apply lookup_lt_is_Some in Hsel as [sg Hsg].
        unfold task_outcome, row_at. rewrite Hsg, bind_Ok. by eapply Hpre.
      + unfold task_outcome, row_at. by rewrite Hsig, bind_Ok.
    - rewrite Hidx, length_app. simpl.
      destruct pre, post; simpl; try lia. done. }
  destruct multithread; [|done].
  rewrite <- Hseq. apply fit_modes_agree; [done|].
  rewrite Hidx. by destruct pre.
Qed.

(** X11: when [__init__] returns, the R2 map is plus infinity, not zero
    and not NaN, at every voxel the settled mask excludes. *)
Theorem r2_is_infinite_where_excluded px te (mask : option loc)
    (mt : multithread_arg) order (h h' : heap) (obj : T2)
    (flat : list bool) (i : nat) :
  T2_init px te mask mt order h = (h', Ok obj) →
  h' !! self_mask obj = Some flat → flat !! i = Some false →
  r2_map obj !! i = Some infinity.
Proof.
  intros Hrun Hflat Hi.
  destruct (T2_excluded_positions_zero _ _ _ _ _ _ _ _ _ _ Hrun)
    as (flat' & Hflat' & _ & _ & Hzero).
  rewrite Hflat in Hflat'. injection Hflat' as <-.
  destruct (Hzero i Hi) as (Ht2 & _).
  unfold r2_map. by rewrite list_lookup_fmap, Ht2.
Qed.

Lemma complete_length tasks te (p : pool) (j : nat) :
  length (futures (complete tasks te p j)) = length (futures p).
Proof.
  unfold complete.
  destruct (tasks !! j); [|done].
  destruct (futures p !! j) as [[]|]; try done.
  simpl. by rewrite length_insert.
Qed.

Lemma complete_progress tasks te (p : pool) (j : nat) :
  progress p = length (finished (futures p)) →
  progress (complete tasks te p j)
  = length (finished (futures (complete tasks te p j))).
Proof.
  intros Hp. unfold complete.
  destruct (tasks !! j); [|done].
  destruct (futures p !! j) as [[]|] eqn:Hj; try done.
  simpl. by rewrite (finished_resolve _ _ _ Hj), Hp.
Qed.

Lemma complete_keeps tasks te (p : pool) (j j' : nat) r :
  futures p !! j = Some (Some r) →
  futures (complete tasks te p j') !! j = Some (Some r).
Proof.
  intros Hj. unfold complete.
  destruct (tasks !! j'); [|done].
  destruct (futures p !! j') as [[]|] eqn:Hj'; try done.
  simpl. rewrite list_lookup_insert_ne; [done|].
  intros ->. by rewrite Hj in Hj'.
Qed.

Lemma complete_resolves tasks te (p : pool) (j : nat) :
  length (futures p) = length tasks → j < length tasks →
  ∃ r, futures (complete tasks te p j) !! j = Some (Some r).
Proof.
  intros Hlen Hj. unfold complete.
  destruct (lookup_lt_is_Some_2 tasks j Hj) as [sig ->].
  rewrite <- Hlen in Hj.
  destruct (lookup_lt_is_Some_2 (futures p) j Hj) as [[r|] Hf]; rewrite Hf.
  - by exists r.
  - eexists. simpl. by apply list_lookup_insert_eq.
Qed.

Lemma workers_invariant tasks te order (p : pool) :
  length (futures p) = length tasks →
  progress p = length (finished (futures p)) →
  let p' := foldl (complete tasks te) p order in
  length (futures p') = length tasks ∧
  progress p' = length (finished (futures p')) ∧
  (∀ j r, futures p !! j = Some (Some r) →
          futures p' !! j = Some (Some r)) ∧
  (∀ j, j ∈ order → j < length tasks →
        ∃ r, futures p' !! j = Some (Some r)).
Proof.
  revert p. induction order as [|j0 order IH]; intros p Hlen Hp; simpl.
  - repeat split; try done. by intros j ?%elem_of_nil.
  - destruct (IH (complete tasks te p j0)) as (Hl & Hpr & Hkeep & Hres).
    { by rewrite complete_length. }
    { by apply complete_progress. }
    split; [done|]. split; [done|]. split.
    + intros j r Hj. by apply Hkeep, complete_keeps.
    + intros j [->|Hj]%elem_of_cons Hlt; [|by apply Hres].
      destruct (complete_resolves tasks te p j0 Hlen Hlt) as [r Hr].
      exists r. by apply Hkeep.
Qed.

(** X12: the progress bar of the multithreaded branch counts the
    finished tasks: after any sequence of completions, repeated reports
    included, it equals the number of resolved futures and is at most the
    number of submitted tasks, and it equals that number once every task
    has finished.  The single-threaded loop, when it returns, has advanced
    it once per selected voxel. *)
Theorem progress_counts_finished_fits tasks te order :
  let p := foldl (complete tasks te)
                 (Pool (replicate (length tasks) None) 0) order in
  progress p = length (finished (futures p)) ∧
  progress p ≤ length tasks ∧
  ((∀ j, j < length tasks → j ∈ order) → progress p = length tasks) ∧
  (∀ signal idx m m' (d d' : nat),
     fit_sequential signal te idx m d = Ok (m', d') →
     d' = d + length idx).
Proof.
  intros p.
  destruct (workers_invariant tasks te order
              (Pool (replicate (length tasks) None) 0))
    as (Hlen & Hpr & _ & Hres).
  { simpl. by rewrite length_replicate. }
  { simpl. induction (length tasks); [done|]. done. }
  fold p in Hlen, Hpr, Hres.
  split; [done|]. split; [|split].
  - rewrite Hpr, <- Hlen. apply finished_length_le.
  - intros Hall. rewrite Hpr, <- Hlen. apply finished_all.
    intros j Hj. rewrite Hlen in Hj. by apply Hres; [apply Hall|].
  - intros signal idx m m' d d'. rewrite fit_sequential_spec.
    destruct (mapM _ idx); [|done]. rewrite bind_Ok. by intros [= _ <-].
Qed.

End FittingFacts.

(** * Further properties of the phase tools and the field map *)

Section Binary64More.

Local Open Scope float_scope.

Implicit Types x y z : float.

Lemma ltb_nan_r x y : is_nan y = true → (x <? y) = false.
Proof.
  intros H. rewrite ltb_spec, (Prim2SF_of_nan y H).
  unfold SFltb. by destruct (Prim2SF x).
Qed.

Lemma ltb_nan_l x y : is_nan x = true → (x <? y) = false.
Proof. intros H. by rewrite ltb_spec, (Prim2SF_of_nan x H). Qed.

Lemma not_finite_cases z :
  Prim2SF z = S754_nan ∨ (∃ s, Prim2SF z = S754_infinity s) →
  is_finite z = false.
Proof.
  intros H.
  assert (z = nan ∨ z = infinity ∨ z = neg_infinity) as [->|[->| ->]];
    [|done|done|done].
  rewrite <- (SF2Prim_Prim2SF z).
  destruct H as [->|[[] ->]]; auto.
Qed.

Lemma div_by_zero_not_finite x : is_finite (x / 0) = false.
Proof.
  apply not_finite_cases. rewrite div_spec.
  change (Prim2SF 0) with (S754_zero false).
  destruct (Prim2SF x) as [s|s| |s m e]; simpl; eauto.
Qed.

Lemma SFabs_binary_round (s : bool) (m : positive) (e : Z) :
  SFabs (binary_round prec emax s m e)
  = SFabs (binary_round prec emax false m e).
Proof.
  unfold binary_round, binary_round_aux.
  destruct (shl_align _ _ _) as [mz ez].
  destruct (shr_fexp _ _ _ _ _) as [mrs' e'].
  destruct (shr_fexp _ _ _ _ _) as [mrs'' e''].
  destruct (shr_m mrs''); try done.
  by destruct (_ <=? _)%Z.
Qed.

Lemma SFabs_binary_normalize_opp (d e : Z) :
  SFabs (binary_normalize prec emax (- d) e false)
  = SFabs (binary_normalize prec emax d e false).
Proof.
  destruct d as [|m|m]; simpl; [done| |].
  - apply SFabs_binary_round.
  - symmetry. apply SFabs_binary_round.
Qed.

Lemma SFabs_sub_swap (a b : spec_float) :
  SFabs (SF64sub a b) = SFabs (SF64sub b a).
Proof.
  unfold SF64sub, SFsub.
  destruct a as [s|s| |s m e], b as [s'|s'| |s' m' e'];
    try destruct s; try destruct s'; try done.
  all: rewrite (Z.min_comm e' e), <- SFabs_binary_normalize_opp;
    f_equal; f_equal; simpl; lia.
Qed.

Lemma abs_sub_swap x y : abs (x - y) = abs (y - x).
Proof.
  apply Prim2SF_inj. rewrite !abs_spec, !sub_spec. apply SFabs_sub_swap.
Qed.

Lemma fmax_nan_l x y : is_nan x = true → is_nan (fmax x y) = true.
Proof. intros H. unfold fmax. by rewrite H. Qed.

Lemma fmax_nan_r x y : is_nan y = true → is_nan (fmax x y) = true.
Proof.
  intros H. unfold fmax. destruct (is_nan x) eqn:Hx; [done|]. by rewrite H.
Qed.

Lemma foldl_fmax_nan (a : list float) x :
  is_nan x = true → is_nan (foldl fmax x a) = true.
Proof.
  revert x. induction a as [|y a IH]; intros x H; simpl; [done|].
  by apply IH, fmax_nan_l.
Qed.

Lemma np_amax_nan (a : list float) x :
  x ∈ a → is_nan x = true → ∃ mx, np_amax a = Ok mx ∧ is_nan mx = true.
Proof.
  destruct a as [|y a]; [by intros ?%elem_of_nil|].
  intros Hin Hx. eexists. split; [done|]. revert y Hin.
  induction a as [|z a IH]; intros y Hin; simpl.
  - apply elem_of_cons in Hin as [->|Hin]; [done|by apply elem_of_nil in Hin].
  - apply elem_of_cons in Hin as [->|Hin].
    + by apply foldl_fmax_nan, fmax_nan_l.
    + apply elem_of_cons in Hin as [->|Hin].
      * by apply foldl_fmax_nan, fmax_nan_r.
      * apply IH. apply elem_of_cons. by right.
Qed.

Lemma fmax_choice x y : fmax x y = x ∨ fmax x y = y.
Proof.
  unfold fmax. destruct (is_nan x), (is_nan y), (x <? y); auto.
Qed.

Lemma fmin_choice x y : fmin x y = x ∨ fmin x y = y.
Proof.
  unfold fmin. destruct (is_nan x), (is_nan y), (y <? x); auto.
Qed.

Lemma foldl_choice (f : float → float → float) (a : list float) x :
  (∀ u v, f u v = u ∨ f u v = v) → foldl f x a ∈ x :: a.
Proof.
  intros Hf. revert x. induction a as [|y a IH]; intros x; simpl.
  - apply elem_of_cons. by left.
  - specialize (IH (f x y)). apply elem_of_cons in IH as [->|IH].
    + destruct (Hf x y) as [-> | ->]; set_solver.
    + set_solver.
Qed.

Lemma np_amax_elem (a : list float) mx : np_amax a = Ok mx → mx ∈ a.
Proof.
  destruct a as [|x a]; [done|]. intros [= <-].
  apply foldl_choice, fmax_choice.
Qed.

Lemma np_amin_elem (a : list float) mn : np_amin a = Ok mn → mn ∈ a.
Proof.
  destruct a as [|x a]; [done|]. intros [= <-].
  apply foldl_choice, fmin_choice.
Qed.

End Binary64More.

(** X13: [convert_to_pi_range] raises on the empty array and on no
    other: on every array with an entry it returns an array of as many
    entries. *)
Theorem convert_to_pi_range_fails_only_on_empty (a : list float) :
  (a = [] → convert_to_pi_range a = Raise ValueError) ∧
  (a ≠ [] → ∃ b, convert_to_pi_range a = Ok b ∧ length b = length a).
Proof.
  split; [by intros ->|]. intros Hne.
  destruct a as [|x a]; [done|].
  destruct (convert_to_pi_range_nonempty x a) as [b Hb].
  exists b. split; [done|]. by apply convert_to_pi_range_length.
Qed.

(** X14: an array with a NaN entry is never rescaled: the maximum is
    NaN, the margin test fails, and the array comes back as it is. *)
Theorem nan_entry_disables_rescaling (a : list float) (x : float) :
  x ∈ a → is_nan x = true → convert_to_pi_range a = Ok a.
Proof.
  intros Hin Hx. unfold convert_to_pi_range.
  destruct (np_amax_nan a x Hin Hx) as (mx & -> & Hmx).
  rewrite bind_Ok. by rewrite (ltb_nan_r _ _ Hmx).
Qed.

(** X15: an array whose values leave the envelope on one side only is
    returned as it is: with no entry above 3.2, or with no entry below
    -3.2, nothing is rescaled, however far the other side reaches. *)
Theorem one_sided_range_is_not_rescaled (a : list float) :
  a ≠ [] →
  Forall (fun x => (margin <? x)%float = false) a ∨
  Forall (fun x => (x <? - margin)%float = false) a →
  convert_to_pi_range a = Ok a.
Proof.
  intros Hne Hside.
  destruct a as [|x0 a0]; [done|]. set (a := x0 :: a0) in *.
  destruct (np_amax a) as [mx|e] eqn:Hmx; [|done].
  destruct (np_amin a) as [mn|e] eqn:Hmn; [|done].
  apply (convert_to_pi_range_unchanged a mx mn Hmx Hmn).
  apply np_amax_elem in Hmx. apply np_amin_elem in Hmn.
  destruct Hside as [Hup|Hlow].
  - rewrite Forall_forall in Hup. by rewrite (Hup mx Hmx).
  - rewrite Forall_forall in Hlow. rewrite (Hlow mn Hmn).
    by destruct (margin <? mx)%float.
Qed.

(** ** Comparisons of binary64 values *)

Lemma lex3_Lt (a b : Z * Z * Z) :
  lex3 a b = Lt ↔
  (a.1.1 < b.1.1 ∨ (a.1.1 = b.1.1 ∧
     (a.1.2 < b.1.2 ∨ (a.1.2 = b.1.2 ∧ a.2 < b.2))))%Z.
Proof.
  unfold lex3.
  destruct (Z.compare_spec a.1.1 b.1.1), (Z.compare_spec a.1.2 b.1.2),
    (Z.compare_spec a.2 b.2); split; try done; lia.
Qed.

Lemma SFcompare_key (x y : spec_float) :
  x ≠ S754_nan → y ≠ S754_nan →
  SFcompare x y = Some (lex3 (sf_key x) (sf_key y)).
Proof.
  intros Hx Hy.
  destruct x as [s|s| |s m e], y as [s'|s'| |s' m' e'];
    try destruct s; try destruct s'; try done.
  unfold lex3. simpl. rewrite Z.compare_opp, (Z.compare_antisym e e').
  by destruct (e ?= e')%Z.
Qed.

Lemma not_nan_Prim2SF (x : float) :
  is_nan x = false ↔ Prim2SF x ≠ S754_nan.
Proof.
  split.
  - intros H. unfold Prim2SF. rewrite H.
    destruct (is_zero x); [done|]. destruct (is_infinity x); [done|].
    destruct (Z.frexp x) as [r ex].
    destruct (shr_fexp _ _ _ _ _) as [shr e']. by destruct (shr_m shr).
  - intros H. destruct (is_nan x) eqn:Hx; [|done].
    by apply Prim2SF_of_nan in Hx.
Qed.

Lemma ltb_key (x y : float) :
  (x <? y)%float = true ↔
  is_nan x = false ∧ is_nan y = false ∧
  lex3 (sf_key (Prim2SF x)) (sf_key (Prim2SF y)) = Lt.
Proof.
  rewrite ltb_spec. unfold SFltb. split.
  - intros H.
    assert (Prim2SF x ≠ S754_nan) as Hx.
    { intros Hx. by rewrite Hx in H. }
    assert (Prim2SF y ≠ S754_nan) as Hy.
    { intros Hy. rewrite Hy in H. by destruct (Prim2SF x). }
    rewrite (SFcompare_key _ _ Hx Hy) in H.
    rewrite !not_nan_Prim2SF. repeat split; try done.
    by destruct (lex3 _ _).
  - intros (Hx%not_nan_Prim2SF & Hy%not_nan_Prim2SF & Hlt).
    by rewrite (SFcompare_key _ _ Hx Hy), Hlt.
Qed.

Lemma ltb_false_key (x y : float) :
  is_nan x = false → is_nan y = false → (x <? y)%float = false →
  lex3 (sf_key (Prim2SF x)) (sf_key (Prim2SF y)) ≠ Lt.
Proof.
  intros Hx Hy Hlt Hkey.
  assert ((x <? y)%float = true) as H by by apply ltb_key.
  by rewrite H in Hlt.
Qed.

(** With no NaN at hand, the larger of two values is above a bound as
    soon as one of them is, and the smaller is below a bound as soon as
    one of them is. *)
Lemma fmax_above (b x y : float) :
  is_nan x = false → is_nan y = false →
  (b <? x)%float = true ∨ (b <? y)%float = true →
  (b <? fmax x y)%float = true.
Proof.
  intros Hx Hy Hb. unfold fmax. rewrite Hx, Hy.
  destruct (x <? y)%float eqn:Hxy.
  - destruct Hb as [Hb|Hb]; [|done].
    apply ltb_key in Hb as (Hnb & _ & Hb%lex3_Lt).
    apply ltb_key in Hxy as (_ & _ & Hxy%lex3_Lt).
    apply ltb_key. repeat split; try done. apply lex3_Lt. lia.
  - destruct Hb as [Hb|Hb]; [done|].
    apply ltb_key in Hb as (Hnb & _ & Hb%lex3_Lt).
    pose proof (ltb_false_key x y Hx Hy Hxy) as Hge. rewrite lex3_Lt in Hge.
    apply ltb_key. repeat split; try done. apply lex3_Lt. lia.
Qed.

Lemma fmin_below (b x y : float) :
  is_nan x = false → is_nan y = false →
  (x <? b)%float = true ∨ (y <? b)%float = true →
  (fmin x y <? b)%float = true.
Proof.
  intros Hx Hy Hb. unfold fmin. rewrite Hx, Hy.
  destruct (y <? x)%float eqn:Hyx.
  - destruct Hb as [Hb|Hb]; [|done].
    apply ltb_key in Hb as (_ & Hnb & Hb%lex3_Lt).
    apply ltb_key in Hyx as (_ & _ & Hyx%lex3_Lt).
    apply ltb_key. repeat split; try done. apply lex3_Lt. lia.
  - destruct Hb as [Hb|Hb]; [done|].
    apply ltb_key in Hb as (_ & Hnb & Hb%lex3_Lt).
    pose proof (ltb_false_key y x Hy Hx Hyx) as Hge. rewrite lex3_Lt in Hge.
    apply ltb_key. repeat split; try done. apply lex3_Lt. lia.
Qed.

Lemma fmax_not_nan (x y : float) :
  is_nan x = false → is_nan y = false → is_nan (fmax x y) = false.
Proof. intros Hx Hy. by destruct (fmax_choice x y) as [-> | ->]. Qed.

Lemma fmin_not_nan (x y : float) :
  is_nan x = false → is_nan y = false → is_nan (fmin x y) = false.
Proof. intros Hx Hy. by destruct (fmin_choice x y) as [-> | ->]. Qed.

Lemma foldl_fmax_above (b : float) (a : list float) (x : float) :
  Forall (fun v => is_nan v = false) (x :: a) →
  (∃ v, v ∈ x :: a ∧ (b <? v)%float = true) →
  (b <? foldl fmax x a)%float = true.
Proof.
  revert x. induction a as [|y a IH]; intros x Hnan (v & Hv & Hb); simpl.
  - apply elem_of_cons in Hv as [->|Hv]; [done|by apply elem_of_nil in Hv].
  - apply Forall_cons in Hnan as [Hx Hnan].
    apply Forall_cons in Hnan as [Hy Hnan].
    apply IH.
    + apply Forall_cons. split; [by apply fmax_not_nan|done].
    + apply elem_of_cons in Hv as [->|Hv].
      * exists (fmax x y). split; [set_solver|]. apply fmax_above; auto.
      * apply elem_of_cons in Hv as [->|Hv].
        -- exists (fmax x y). split; [set_solver|]. apply fmax_above; auto.
        -- exists v. split; [set_solver|done].
Qed.

Lemma foldl_fmin_below (b : float) (a : list float) (x : float) :
  Forall (fun v => is_nan v = false) (x :: a) →
  (∃ v, v ∈ x :: a ∧ (v <? b)%float = true) →
  (foldl fmin x a <? b)%float = true.
Proof.
  revert x. induction a as [|y a IH]; intros x Hnan (v & Hv & Hb); simpl.
  - apply elem_of_cons in Hv as [->|Hv]; [done|by apply elem_of_nil in Hv].
  - apply Forall_cons in Hnan as [Hx Hnan].
    apply Forall_cons in Hnan as [Hy Hnan].
    apply IH.
    + apply Forall_cons. split; [by apply fmin_not_nan|done].
    + apply elem_of_cons in Hv as [->|Hv].
      * exists (fmin x y). split; [set_solver|]. apply fmin_below; auto.
      * apply elem_of_cons in Hv as [->|Hv].
        -- exists (fmin x y). split; [set_solver|]. apply fmin_below; auto.
        -- exists v. split; [set_solver|done].
Qed.

(** X16: an array without NaN that has an entry above 3.2 and an entry
    below -3.2 is rescaled: every entry [x] becomes
    [2 * pi * (x - min) / (max - min) - pi], with the array's own maximum
    and minimum. *)
Theorem two_sided_range_is_rescaled (a : list float) :
  Forall (fun v => is_nan v = false) a →
  (∃ v, v ∈ a ∧ (margin <? v)%float = true) →
  (∃ v, v ∈ a ∧ (v <? - margin)%float = true) →
  ∃ mx mn,
    np_amax a = Ok mx ∧ np_amin a = Ok mn ∧
    convert_to_pi_range a
    = Ok (map (fun x => (2 * (np_pi * 1) * (x - mn * 1)
                         / (mx * 1 - mn * 1) - np_pi * 1)%float) a).
Proof.
  intros Hnan Hup Hlow.
  destruct a as [|x a]; [by destruct Hup as (v & ?%elem_of_nil & _)|].
  exists (foldl fmax x a), (foldl fmin x a).
  split; [done|]. split; [done|].
  unfold convert_to_pi_range. simpl np_amax. simpl np_amin.
  rewrite bind_Ok, (foldl_fmax_above margin a x Hnan Hup).
  by rewrite bind_Ok, (foldl_fmin_below _ a x Hnan Hlow).
Qed.

(** ** More of the field-map path *)

Lemma last_axis_Ok (px : pixel_array) (j : nat) :
  Forall (fun row : list float => j < length row) (voxels px) →
  ∃ raw, last_axis px j = Ok raw ∧ length raw = length (voxels px).
Proof.
  intros Hrows.
  destruct (mapM_res_all_Ok
              (fun row : list float =>
                 match row !! j with
                 | Some x => Ok x
                 | None => Raise IndexError
                 end) (voxels px)) as [raw Hraw].
  - eapply Forall_impl; [exact Hrows|]. intros row Hj. simpl in Hj.
    apply lookup_lt_is_Some in Hj as [x ->]. by exists x.
  - exists raw. split; [done|]. by apply mapM_res_length in Hraw.
Qed.

Lemma masked_array_length (data : list float) (mask : option (list bool))
    (a : marray) :
  masked_array data mask = Ok a → length a = length data.
Proof.
  unfold masked_array. destruct mask as [m|].
  - destruct (length m =? length data) eqn:Hlen.
    + apply Nat.eqb_eq in Hlen. intros [= <-].
      rewrite length_zip_with. lia.
    + destruct m as [|b [|]]; try done. intros [= <-]. by rewrite length_map.
  - intros [= <-]. by rewrite length_map.
Qed.

Lemma masked_array_all_true (data : list float) (n : nat) :
  length data = n →
  masked_array data (Some (replicate n true)) = Ok (replicate n None).
Proof.
  intros <-.
  unfold masked_array. rewrite length_replicate, Nat.eqb_refl. f_equal.
  induction data as [|x data IH]; [done|]. simpl. by rewrite IH.
Qed.

Lemma build_phase_inv (px : pixel_array) (mask : option (list bool))
    (j : nat) (built : marray) :
  build_phase px mask j = Ok built →
  ∃ scaled,
    length scaled = length (voxels px) ∧
    (∀ mask', build_phase px mask' j = masked_array scaled mask') ∧
    masked_array scaled mask = Ok built.
Proof.
  unfold build_phase.
  destruct (last_axis px j) as [raw|e] eqn:Hraw; [|done]. rewrite bind_Ok.
  destruct (convert_to_pi_range raw) as [scaled|e] eqn:Hsc; [|done].
  rewrite bind_Ok. intros Hbuilt. exists scaled.
  pose proof (mapM_res_length _ _ _ Hraw) as Hlraw.
  pose proof (convert_to_pi_range_length _ _ Hsc) as Hlsc.
  split; [lia|]. split; [|done]. intros mask'.
  by rewrite bind_Ok, Hsc, bind_Ok.
Qed.

Lemma ma_subtract_all_masked (n : nat) :
  ma_subtract (replicate n None) (replicate n None) = Ok (replicate n None).
Proof.
  unfold ma_subtract. rewrite Nat.eqb_refl. f_equal.
  induction n as [|n IH]; [done|]. simpl. by rewrite IH.
Qed.

Lemma ma_true_divide_all_masked (n : nat) (d : float) :
  ma_true_divide (replicate n None) d = replicate n None.
Proof.
  unfold ma_true_divide. induction n as [|n IH]; [done|]. simpl. by rewrite IH.
Qed.

Section FieldMapMore.

Variable unwrap_phase : marray → bool → res marray.

Local Abbreviation B0_init := (B0_init unwrap_phase).

Implicit Types (px : pixel_array) (te : list float).
Implicit Types (mask : option (list bool)) (obj : B0).

(** X17: the field map does not depend on the order in which the two
    echo times are listed: [delta_te] is an absolute difference, so only
    the order of the two phase volumes fixes the sign of the map. *)
Theorem echo_order_is_irrelevant px (echo0 echo1 : float) mask
    (unwrap wrap_around : bool) :
  B0_init px [echo0; echo1] mask unwrap wrap_around
  = B0_init px [echo1; echo0] mask unwrap wrap_around.
Proof.
  unfold B0_init. cbn [length].
  destruct (_ && _); [|done].
  by rewrite (abs_sub_swap echo1 echo0).
Qed.

(** X18: a caller mask that has neither the size of the map nor a single
    entry is refused with [MaskError] when the first phase image is
    built, for every non-empty array of two phase volumes. *)
Theorem mask_of_another_size_is_refused px te (m : list bool)
    (unwrap wrap_around : bool) :
  n_te px = 2 → length te = 2 → voxels px ≠ [] →
  Forall (fun row : list float => 2 ≤ length row) (voxels px) →
  length m ≠ length (voxels px) → length m ≠ 1 →
  B0_init px te (Some m) unwrap wrap_around = Raise MaskError.
Proof.
  intros Hn Hte Hne Hrows Hm Hm1. unfold B0_init.
  rewrite Hn, Hte. simpl andb. cbv iota.
  destruct te as [|echo0 [|echo1 [|]]]; try done.
  assert (build_phase px (Some m) 0 = Raise MaskError) as ->; [|done].
  unfold build_phase.
  destruct (last_axis_Ok px 0) as (raw & -> & Hraw).
  { eapply Forall_impl; [exact Hrows|]. simpl. lia. }
  rewrite bind_Ok.
  destruct raw as [|x raw].
  { destruct (voxels px); [done|]. simpl in Hraw. lia. }
  destruct (convert_to_pi_range_nonempty x raw) as [scaled Hsc].
  rewrite Hsc, bind_Ok. apply convert_to_pi_range_length in Hsc.
  unfold masked_array.
  assert ((length m =? length scaled) = false) as ->.
  { apply Nat.eqb_neq. lia. }
  destruct m as [|b [|]]; simpl in Hm1; try done.
Qed.

(** X19: the mask [__init__] keeps when none is passed is true everywhere,
    and nothing is masked; but that same mask passed by the caller masks
    every entry of both phase images and of the field map. *)
Theorem default_mask_passed_back_masks_all px te (wrap_around : bool) obj :
  B0_init px te None false wrap_around = Ok obj →
  b0_mask obj = replicate (length (voxels px)) true ∧
  Forall (fun v => v ≠ None) (phase0 obj) ∧
  ∃ obj',
    B0_init px te (Some (b0_mask obj)) false wrap_around = Ok obj' ∧
    phase0 obj' = replicate (length (voxels px)) None ∧
    phase1 obj' = replicate (length (voxels px)) None ∧
    b0_map obj' = replicate (length (voxels px)) None.
Proof.
  intros Hrun.
  destruct (B0_init_Ok_inv _ _ _ _ _ _ _ Hrun)
    as (echo0 & echo1 & built0 & built1 & diff & -> & Hn & Hb0 & Hb1 & Hp0
        & _).
  injection Hp0 as Hp0.
  destruct (build_phase_inv _ _ _ _ Hb0) as (sc0 & Hl0 & Hall0 & Hm0).
  destruct (build_phase_inv _ _ _ _ Hb1) as (sc1 & Hl1 & Hall1 & _).
  assert (b0_mask obj = replicate (length (voxels px)) true) as Hmask.
  { unfold B0_init in Hrun. rewrite Hn in Hrun. simpl in Hrun.
    rewrite Hb0, Hb1 in Hrun. rewrite !bind_Ok in Hrun.
    destruct (ma_subtract built1 built0); [|done].
    rewrite bind_Ok in Hrun. by injection Hrun as <-. }
  split; [done|]. split.
  { rewrite <- Hp0. injection Hm0 as <-. apply Forall_fmap, Forall_true.
    done. }
  rewrite Hmask. unfold B0_init. rewrite Hn. simpl andb. cbv iota.
  rewrite Hall0, Hall1.
  rewrite (masked_array_all_true sc0 _ Hl0), bind_Ok.
  rewrite (masked_array_all_true sc1 _ Hl1), !bind_Ok.
  rewrite ma_subtract_all_masked, bind_Ok, ma_true_divide_all_masked.
  by eexists.
Qed.

(** X20: with two equal, finite echo times nothing is raised, [delta_te]
    is zero and no entry of the field map is valid. *)
Theorem equal_echo_times_mask_the_map px (echo : float) mask
    (unwrap wrap_around : bool) obj :
  is_finite echo = true →
  B0_init px [echo; echo] mask unwrap wrap_around = Ok obj →
  delta_te obj = 0%float ∧ Forall (fun v => v = None) (b0_map obj).
Proof.
  intros Hfin Hrun.
  destruct (B0_init_Ok_inv _ _ _ _ _ _ _ Hrun)
    as (echo0 & echo1 & built0 & built1 & diff & [= <- <-] & _ & _ & _ & _ & _
        & _ & Hdte & _ & Hmap).
  rewrite (sub_diag_finite echo Hfin) in Hdte.
  change (abs 0 * milli)%float with 0%float in Hdte.
  split; [done|]. rewrite Hmap, Hdte.
  change (2 * np_pi * 0)%float with 0%float.
  unfold ma_true_divide. apply Forall_fmap, Forall_forall.
  intros [u|] _; [|done]. simpl. unfold ma_entry_divide.
  by rewrite div_by_zero_not_finite.
Qed.

(** X21: without unwrapping, the two phase images, their difference and
    the field map all have one entry per voxel of the array, whatever the
    caller's mask. *)
Theorem field_map_has_the_shape_of_the_array px te mask
    (wrap_around : bool) obj :
  B0_init px te mask false wrap_around = Ok obj →
  length (phase0 obj) = length (voxels px) ∧
  length (phase1 obj) = length (voxels px) ∧
  length (phase_difference obj) = length (voxels px) ∧
  length (b0_map obj) = length (voxels px).
Proof.
  intros Hrun.
  destruct (B0_init_Ok_inv _ _ _ _ _ _ _ Hrun)
    as (echo0 & echo1 & built0 & built1 & diff & _ & _ & Hb0 & Hb1 & Hp0
        & Hp1 & Hsub & _ & Hdiff & Hmap).
  injection Hp0 as Hp0. injection Hp1 as Hp1.
  destruct (build_phase_inv _ _ _ _ Hb0) as (sc0 & Hl0 & _ & Hm0).
  destruct (build_phase_inv _ _ _ _ Hb1) as (sc1 & Hl1 & _ & Hm1).
  apply masked_array_length in Hm0, Hm1.
  assert (length (phase0 obj) = length (voxels px)) as H0 by congruence.
  assert (length (phase1 obj) = length (voxels px)) as H1 by congruence.
  unfold ma_subtract in Hsub.
  destruct (_ =? _); [|done]. injection Hsub as Hsub.
  assert (length diff = length (voxels px)) as Hd.
  { rewrite <- Hsub, length_zip_with. lia. }
  rewrite Hdiff, Hmap. unfold ma_true_divide. rewrite length_map.
  done.
Qed.

End FieldMapMore.

(** ** Saving the maps *)

Section NiftiFacts.

Variable path_exists : string → bool.
Variable path_join : string → string → string.
Variable image : Type.
Variable files : Type.
Variable Nifti1Image : nifti_data → affine_arg → res image.
Variable nib_save : image → string → IO files ().

#[local] Existing Instance IO_ret.
#[local] Existing Instance IO_bind.

Local Abbreviation to_nifti :=
  (to_nifti path_exists path_join image files Nifti1Image nib_save).
Local Abbreviation save_named :=
  (save_named image files Nifti1Image nib_save).
Local Abbreviation for_each := (for_each files).

Implicit Types (self : B0) (affine : affine_arg) (maps : maps_arg).
Implicit Types (fs : files) (names : list string).

(** An exception that one of the two calls into the image library
    raises. *)
Definition raised_by_nib affine (e : exn) : Prop :=
  (∃ data, Nifti1Image data affine = Raise e) ∨
  (∃ img path fs, (nib_save img path fs).2 = Raise e).

Lemma IO_then_run {A} (m : IO files A) (k : IO files ()) fs :
  (m ;; k) fs
  = match m fs with
    | (fs', Ok _) => k fs'
    | (fs', Raise e) => (fs', Raise e)
    end.
Proof. reflexivity. Qed.

Lemma IO_then_raise {A} (m : IO files A) (k : IO files ()) fs
    (P : exn → Prop) :
  (∀ fs0 e, (m fs0).2 = Raise e → P e) →
  (∀ fs0 e, (k fs0).2 = Raise e → P e) →
  ∀ e, ((m ;; k) fs).2 = Raise e → P e.
Proof.
  intros Hm Hk e. rewrite IO_then_run.
  destruct (m fs) as [fs' [a|e']] eqn:Hrun.
  - apply Hk.
  - simpl. intros [= ->]. apply (Hm fs). by rewrite Hrun.
Qed.

Lemma image_then_save_raise affine (data : nifti_data) (path : string)
    fs (e : exn) :
  ((img ← io_lift files (Nifti1Image data affine); nib_save img path) fs).2
    = Raise e →
  raised_by_nib affine e.
Proof.
  unfold mbind, IO_bind, io_lift.
  destruct (Nifti1Image data affine) as [img|e'] eqn:Himg.
  - intros Hsave. right. by exists img, path, fs.
  - simpl. intros [= ->]. left. by exists data.
Qed.

Lemma save_named_raise self affine (base_path name : string) fs (e : exn) :
  (save_named self affine base_path name fs).2 = Raise e →
  raised_by_nib affine e.
Proof.
  unfold save_named.
  repeat case_bool_decide; try apply image_then_save_raise.
  by intros [=].
Qed.

Lemma save_named_unknown self affine (base_path name : string) :
  name ∉ known_names → save_named self affine base_path name = mret ().
Proof.
  intros Hout. unfold save_named.
  repeat case_bool_decide; try done; exfalso; apply Hout;
    unfold known_names; set_solver.
Qed.

Lemma for_each_raise self affine (base_path : string) names fs (e : exn) :
  (for_each names (save_named self affine base_path) fs).2 = Raise e →
  raised_by_nib affine e.
Proof.
  revert fs e.
  induction names as [|name names IH]; intros fs e; [by intros [=]|].
  simpl for_each. revert e. apply IO_then_raise.
  - intros fs0 e. apply save_named_raise.
  - intros fs0 e. apply IH.
Qed.

Lemma for_each_skips_unknown self affine (base_path : string) names fs :
  for_each names (save_named self affine base_path) fs
  = for_each (filter (.∈ known_names) names)
             (save_named self affine base_path) fs.
Proof.
  revert fs. induction names as [|name names IH]; intros fs; [done|].
  destruct (decide (name ∈ known_names)) as [Hin|Hout].
  - rewrite filter_cons_True by done. simpl for_each.
    rewrite !IO_then_run.
    by destruct (save_named self affine base_path name fs) as [fs' [[]|e]].
  - rewrite filter_cons_False by done. simpl for_each.
    rewrite IO_then_run, save_named_unknown by done. apply IH.
Qed.

Lemma selects_all_list names :
  names ≠ ["all"%string] → selects_all (MapsList names) = false.
Proof.
  intros Hne. destruct names as [|name [|]]; simpl; try done.
  case_bool_decide; [by subst|done].
Qed.

Lemma IO_then_ext {A} (m : IO files A) (k k' : IO files ()) fs :
  (∀ fs', k fs' = k' fs') → (m ;; k) fs = (m ;; k') fs.
Proof.
  intros Hk. rewrite !IO_then_run. by destruct (m fs) as [fs' [a|e]].
Qed.

Lemma IO_then_ret (m : IO files ()) fs : (m ;; mret ()) fs = m fs.
Proof.
  rewrite IO_then_run. unfold mret, IO_ret.
  by destruct (m fs) as [fs' [[]|e]].
Qed.

Lemma save_named_b0_map self affine (base_path : string) :
  save_named self affine base_path "b0_map"
  = save_b0_map image files Nifti1Image nib_save self affine base_path.
Proof. reflexivity. Qed.
Lemma save_named_mask self affine (base_path : string) :
  save_named self affine base_path "mask"
  = save_mask image files Nifti1Image nib_save self affine base_path.
Proof. reflexivity. Qed.
Lemma save_named_phase0 self affine (base_path : string) :
  save_named self affine base_path "phase0"
  = save_phase0 image files Nifti1Image nib_save self affine base_path.
Proof. reflexivity. Qed.
Lemma save_named_phase1 self affine (base_path : string) :
  save_named self affine base_path "phase1"
  = save_phase1 image files Nifti1Image nib_save self affine base_path.
Proof. reflexivity. Qed.
Lemma save_named_phase_difference self affine (base_path : string) :
  save_named self affine base_path "phase_difference"
  = save_phase_difference image files Nifti1Image nib_save self affine
      base_path.
Proof. reflexivity. Qed.

(** X22: [to_nifti] validates before it writes.  A missing directory is
    reported first ([ValueError]), then an affine that is neither an
    array nor a list ([TypeError]), then an affine of another shape than
    (4, 4) ([ValueError]), and, when nothing is saved for that reason, a
    value of [maps] that is neither ['all'] nor a list ([ValueError]); in
    each case the file system is as it was.  Once the directory, the
    affine and [maps] have passed, every exception the call ends with is
    one raised by [nib.Nifti1Image] or by [nib.save]. *)
Theorem to_nifti_validates_before_writing self affine (output_directory
    base_file_name : string) maps fs :
  (path_exists output_directory = false →
   to_nifti self affine output_directory base_file_name maps fs
   = (fs, Raise ValueError)) ∧
  (path_exists output_directory = true → affine = AffineOther →
   to_nifti self affine output_directory base_file_name maps fs
   = (fs, Raise TypeError)) ∧
  (path_exists output_directory = true →
   ∀ shape, affine = AffineArray shape ∨ affine = AffineList shape →
   shape ≠ [4; 4] →
   to_nifti self affine output_directory base_file_name maps fs
   = (fs, Raise ValueError)) ∧
  (path_exists output_directory = true →
   affine = AffineArray [4; 4] ∨ affine = AffineList [4; 4] →
   maps ≠ MapsStr "all" → (∀ names, maps ≠ MapsList names) →
   to_nifti self affine output_directory base_file_name maps fs
   = (fs, Raise ValueError)) ∧
  (path_exists output_directory = true →
   affine = AffineArray [4; 4] ∨ affine = AffineList [4; 4] →
   maps = MapsStr "all" ∨ (∃ names, maps = MapsList names) →
   ∀ e, (to_nifti self affine output_directory base_file_name maps fs).2
        = Raise e →
        raised_by_nib affine e).
Proof.
  unfold to_nifti. split; [|split; [|split; [|split]]].
  - by intros ->.
  - by intros -> ->.
  - intros -> shape [-> | ->] Hshape; simpl; by case_bool_decide.
  - intros -> Haff Hstr Hlist.
    assert (selects_all maps = false) as ->.
    { destruct maps as [s|[|name [|]]|]; simpl; try done.
      - case_bool_decide; [by subst|done].
      - by destruct (Hlist [name]). }
    destruct maps as [s|names|]; [|by destruct (Hlist names)|];
      by destruct Haff as [-> | ->].
  - intros -> Haff Hmaps e.
    destruct Haff as [-> | ->]; simpl negb; cbv iota.
    all: destruct (selects_all maps) eqn:Hsel;
      [|destruct Hmaps as [-> | [names ->]];
        [simpl in Hsel; by case_bool_decide|apply for_each_raise]].
    all: revert e; apply IO_then_raise;
      [intros fs0 e; apply image_then_save_raise|intros fs1].
    all: apply IO_then_raise;
      [intros fs0 e; apply image_then_save_raise|intros fs2].
    all: apply IO_then_raise;
      [intros fs0 e; apply image_then_save_raise|intros fs3].
    all: apply IO_then_raise;
      [intros fs0 e; apply image_then_save_raise|intros fs4 e].
    all: apply image_then_save_raise.
Qed.

(** X23: the selector ['all'] does what the list of the five map names
    does: the same images are made and saved under the same paths in the
    same order, so the two calls leave the same files and end alike, with
    the same exception if one is raised. *)
Theorem all_saves_the_five_maps self affine (output_directory
    base_file_name : string) fs :
  to_nifti self affine output_directory base_file_name (MapsStr "all") fs
  = to_nifti self affine output_directory base_file_name
      (MapsList ["b0_map"; "mask"; "phase0"; "phase1";
                 "phase_difference"]%string) fs.
Proof.
  unfold to_nifti.
  destruct (path_exists output_directory); [|done].
  destruct affine as [shape|shape|]; [| |done];
    (case_bool_decide; [|done]); simpl negb; cbv iota.
  all: change (selects_all (MapsStr "all")) with true.
  all: change (selects_all (MapsList _)) with false.
  all: cbv iota; cbn [for_each].
  all: rewrite save_named_b0_map, save_named_mask, save_named_phase0,
         save_named_phase1, save_named_phase_difference.
  all: do 4 (apply IO_then_ext; intros ?).
  all: symmetry; apply IO_then_ret.
Qed.


End NiftiFacts.

(** ** The further properties on concrete inputs *)

(** Three voxels of which the mask selects the first and the last. *)
Lemma parallel_agrees_with_sequential_witness :
  fit example_exp example_curve_fit 3 [true; false; true]
      [[1; 2]; [3; 4]; [5; 6]]%float [10; 20]%float true [1; 0]
  = fit example_exp example_curve_fit 3 [true; false; true]
      [[1; 2]; [3; 4]; [5; 6]]%float [10; 20]%float false [].
Proof.
  by apply (parallel_agrees_with_sequential example_exp example_curve_fit).
Defined.

(** Four voxels, the second with a NaN sample, and a caller mask that
    leaves the fourth out: the first and the third are fitted. *)
Lemma example_run4 :
  T2_init example_exp example_curve_fit example_px4 [10; 20]%float
    (Some 7%positive) MT_False [] example_heap4
  = (<[7%positive := [true; false; true; false]]> example_heap4,
     Ok (mkT2 2 4 7%positive false
           (Maps [1; 0; 5; 0]%float [2; 0; 2; 0]%float
                 [5000; 0; 5000; 0]%float [3; 0; 3; 0]%float))).
Proof.
  by rewrite (T2_init_caller_mask _ _ example_px4 _ 7%positive _ _ _
                example_mask4).
Qed.

Lemma excluded_voxels_are_zero_witness :
  ∃ h' obj,
    T2_init example_exp example_curve_fit example_px4 [10; 20]%float
      (Some 7%positive) MT_False [] example_heap4 = (h', Ok obj) ∧
    t2_map (self_maps obj) !! 1 = Some 0%float ∧
    t2_map (self_maps obj) !! 3 = Some 0%float.
Proof.
  eexists _, _. split; [exact example_run4|]. split.
  - eapply (excluded_voxels_are_zero example_exp example_curve_fit
              example_px4 _ _ _ _ example_heap4 _ _ 1 example_run4).
    right. exists [nan; 3]%float, nan. split; [done|]. split; [|done].
    apply elem_of_cons. by left.
  - eapply (excluded_voxels_are_zero example_exp example_curve_fit
              example_px4 _ _ _ _ example_heap4 _ _ 3 example_run4).
    left. by exists 7%positive, example_mask4.
Defined.

Lemma selected_voxels_hold_their_fit_witness :
  ∃ h' obj,
    T2_init example_exp example_curve_fit example_px4 [10; 20]%float
      (Some 7%positive) MT_False [] example_heap4 = (h', Ok obj) ∧
    ∃ sig r,
      voxels example_px4 !! 2 = Some sig ∧
      fit_signal example_exp example_curve_fit sig [10; 20]%float = Ok r ∧
      t2_map (self_maps obj) !! 2 = Some (fit_t2 r) ∧
      t2_err (self_maps obj) !! 2 = Some (fit_t2_err r) ∧
      m0_map (self_maps obj) !! 2 = Some (fit_m0 r) ∧
      m0_err (self_maps obj) !! 2 = Some (fit_m0_err r).
Proof.
  eexists _, _. split; [exact example_run4|].
  by eapply (selected_voxels_hold_their_fit example_exp example_curve_fit
               example_px4 _ _ _ _ example_heap4 _ _
               [true; false; true; false] 2 example_run4).
Defined.

Lemma maps_have_the_shape_of_the_array_witness :
  ∃ h' obj,
    T2_init example_exp example_curve_fit example_px4 [10; 20]%float
      (Some 7%positive) MT_False [] example_heap4 = (h', Ok obj) ∧
    length (t2_map (self_maps obj)) = 4 ∧
    length (t2_err (self_maps obj)) = 4 ∧
    length (m0_map (self_maps obj)) = 4 ∧
    length (m0_err (self_maps obj)) = 4.
Proof.
  eexists _, _. split; [exact example_run4|].
  by eapply (maps_have_the_shape_of_the_array example_exp example_curve_fit
               example_px4 _ _ _ _ example_heap4 _ _ example_run4).
Defined.


Lemma caller_mask_only_shrinks_witness :
  let h1 := (T2_init example_exp example_curve_fit example_px4
               [10; 20]%float (Some 7%positive) MT_False []
               example_heap4).1 in
  (∃ flat, h1 !! 7%positive = Some flat ∧
           ∀ i, flat !! i = Some true →
                example_mask4 !! i = Some true ∧
                nan_voxels example_px4 !! i = Some false) ∧
  (T2_init example_exp example_curve_fit example_px4 [10; 20]%float
     (Some 7%positive) MT_True [1; 0] h1).1 = h1.
Proof.
  by apply (caller_mask_only_shrinks example_exp example_curve_fit
              example_px4 _ 7%positive MT_False MT_True [] [1; 0]
              example_heap4 example_mask4).
Defined.

Lemma default_mask_is_fresh_witness :
  let run := T2_init example_exp example_curve_fit example_px4
               [10; 20]%float None MT_False [] example_heap4 in
  (∀ l a, example_heap4 !! l = Some a → run.1 !! l = Some a) ∧
  (∀ obj, run.2 = Ok obj →
          example_heap4 !! self_mask obj = None ∧
          run.1 !! self_mask obj = Some (map negb (nan_voxels example_px4))).
Proof.
  by apply (default_mask_is_fresh example_exp example_curve_fit).
Defined.

(** The optimiser raises [ValueError] on the second of three selected
    voxels, whose signal is empty. *)
Lemma first_failing_voxel_raises_witness :
  fit example_exp example_curve_fit 3 [true; true; true]
      [[1; 2]; []; [3; 4]]%float [10; 20]%float true [2; 0]
  = Raise ValueError.
Proof.
  apply (first_failing_voxel_raises example_exp example_curve_fit 3
           [true; true; true] [[1; 2]; []; [3; 4]]%float [10; 20]%float
           true [2; 0] [0] [2] 1 [] ValueError); try done.
  intros j sg ->%list_elem_of_singleton [= <-]. by eexists.
Defined.

Lemma r2_is_infinite_where_excluded_witness :
  ∃ h' obj,
    T2_init example_exp example_curve_fit example_px4 [10; 20]%float
      (Some 7%positive) MT_False [] example_heap4 = (h', Ok obj) ∧
    r2_map obj !! 1 = Some infinity ∧ r2_map obj !! 3 = Some infinity.
Proof.
  eexists _, _. split; [exact example_run4|]. split.
  - by eapply (r2_is_infinite_where_excluded example_exp example_curve_fit
                 example_px4 _ _ _ _ example_heap4 _ _
                 [true; false; true; false] 1 example_run4).
  - by eapply (r2_is_infinite_where_excluded example_exp example_curve_fit
                 example_px4 _ _ _ _ example_heap4 _ _
                 [true; false; true; false] 3 example_run4).
Defined.

Lemma nan_entry_disables_rescaling_witness :
  convert_to_pi_range [10; nan; -10]%float = Ok [10; nan; -10]%float.
Proof.
  apply (nan_entry_disables_rescaling _ nan); [|done].
  apply elem_of_cons. right. apply elem_of_cons. by left.
Defined.

Lemma one_sided_range_is_not_rescaled_witness :
  convert_to_pi_range [0; 4095]%float = Ok [0; 4095]%float.
Proof.
  apply one_sided_range_is_not_rescaled; [done|].
  right. by repeat constructor.
Defined.

Lemma two_sided_range_is_rescaled_witness :
  ∃ mx mn,
    np_amax [-4096; 0; 4095]%float = Ok mx ∧
    np_amin [-4096; 0; 4095]%float = Ok mn ∧
    convert_to_pi_range [-4096; 0; 4095]%float
    = Ok (map (fun x => (2 * (np_pi * 1) * (x - mn * 1)
                         / (mx * 1 - mn * 1) - np_pi * 1)%float)
              [-4096; 0; 4095]%float).
Proof.
  apply two_sided_range_is_rescaled.
  - by repeat constructor.
  - exists 4095%float. split; [|done]. do 2 (apply elem_of_cons; right).
    apply elem_of_cons. by left.
  - exists (-4096)%float. split; [|done]. apply elem_of_cons. by left.
Defined.

Lemma mask_of_another_size_is_refused_witness :
  B0_init example_unwrap example_phases [5; 7]%float
    (Some [true; false; true]) true false = Raise MaskError.
Proof.
  apply mask_of_another_size_is_refused; try done.
  by repeat constructor.
Defined.

Lemma default_mask_passed_back_masks_all_witness :
  ∃ obj,
    B0_init example_unwrap example_phases [5; 7]%float None false false
      = Ok obj ∧
    b0_mask obj = [true; true] ∧
    ∃ obj',
      B0_init example_unwrap example_phases [5; 7]%float
        (Some (b0_mask obj)) false false = Ok obj' ∧
      b0_map obj' = [None; None].
Proof.
  eexists. split; [reflexivity|].
  destruct (default_mask_passed_back_masks_all example_unwrap example_phases
              [5; 7]%float false _ eq_refl)
    as (Hmask & _ & obj' & Hrun & _ & _ & Hmap).
  split; [exact Hmask|]. exists obj'. split; [exact Hrun|exact Hmap].
Defined.

Lemma equal_echo_times_mask_the_map_witness :
  ∃ obj,
    B0_init example_unwrap example_phases [5; 5]%float None false false
      = Ok obj ∧
    delta_te obj = 0%float ∧ Forall (fun v => v = None) (b0_map obj).
Proof.
  eexists. split; [reflexivity|].
  by apply (equal_echo_times_mask_the_map example_unwrap example_phases
              5%float None false false).
Defined.

Lemma field_map_has_the_shape_of_the_array_witness :
  ∃ obj,
    B0_init example_unwrap example_phases [5; 7]%float (Some [true])
      false false = Ok obj ∧
    length (phase0 obj) = 2 ∧ length (phase1 obj) = 2 ∧
    length (phase_difference obj) = 2 ∧ length (b0_map obj) = 2.
Proof.
  eexists. split; [reflexivity|].
  by apply (field_map_has_the_shape_of_the_array example_unwrap
              example_phases [5; 7]%float (Some [true]) false).
Defined.

(** A missing directory, and the mask asked of an image library that
    refuses integer data: the first call raises before anything is
    written, the second raises what the library raises. *)
Lemma to_nifti_validates_before_writing_witness :
  to_nifti example_exists example_join nifti_data
    (list (string * nifti_data)) example_Nifti1Image example_save
    example_b0 (AffineArray [4; 4]) "missing" "Output" (MapsStr "all") []
  = ([], Raise ValueError) ∧
  raised_by_nib nifti_data (list (string * nifti_data))
    example_Nifti1Image example_save (AffineArray [4; 4]) ValueError.
Proof.
  pose proof (to_nifti_validates_before_writing example_exists example_join
                nifti_data (list (string * nifti_data)) example_Nifti1Image
                example_save example_b0 (AffineArray [4; 4]) "missing"
                "Output" (MapsStr "all") []) as (Hmissing & _).
  split; [by apply Hmissing|].
  pose proof (to_nifti_validates_before_writing example_exists example_join
                nifti_data (list (string * nifti_data)) example_Nifti1Image
                example_save example_b0 (AffineArray [4; 4]) "out"
                "Output" (MapsList ["mask"]%string) [])
    as (_ & _ & _ & _ & Hnib).
  apply Hnib; [done|by left|by right; eexists|done].
Defined.


(** ** The signal model *)

Section SignalModel.

Local Open Scope float_scope.

Lemma binary_round_aux_opp (s : bool) (m e : Z) (l : location) :
  binary_round_aux prec emax (negb s) m e l
  = SFopp (binary_round_aux prec emax s m e l).
Proof.
  unfold binary_round_aux.
  destruct (shr_fexp _ _ _ _ _) as [mrs' e'].
  destruct (shr_fexp _ _ _ _ _) as [mrs'' e''].
  destruct (shr_m mrs''); try done.
  by destruct (_ <=? _)%Z.
Qed.

Lemma binary_round_aux_sign_clear (m e : Z) (l : location) :
  sign_clear (binary_round_aux prec emax false m e l).
Proof.
  unfold binary_round_aux.
  destruct (shr_fexp _ _ _ _ _) as [mrs' e'].
  destruct (shr_fexp _ _ _ _ _) as [mrs'' e''].
  destruct (shr_m mrs''); try done.
  by destruct (_ <=? _)%Z.
Qed.

Lemma mul_opp_l (x y : float) : (- x) * y = - (x * y).
Proof.
  apply Prim2SF_inj. rewrite opp_spec, !mul_spec, opp_spec.
  unfold SF64mul, SFmul.
  destruct (Prim2SF x) as [s|s| |s m e], (Prim2SF y) as [s'|s'| |s' m' e'];
    simpl; try done; try (by destruct s, s').
  rewrite <- binary_round_aux_opp. by destruct s, s'.
Qed.

Lemma mul_opp_r (x y : float) : x * (- y) = - (x * y).
Proof.
  apply Prim2SF_inj. rewrite opp_spec, !mul_spec, opp_spec.
  unfold SF64mul, SFmul.
  destruct (Prim2SF x) as [s|s| |s m e], (Prim2SF y) as [s'|s'| |s' m' e'];
    simpl; try done; try (by destruct s, s').
  rewrite <- binary_round_aux_opp. by destruct s, s'.
Qed.

Lemma opp_involutive (x : float) : - - x = x.
Proof.
  apply Prim2SF_inj. rewrite !opp_spec.
  by destruct (Prim2SF x) as [[]|[]| |[] m e].
Qed.

Lemma square_opp (x : float) : (- x) * (- x) = x * x.
Proof. by rewrite mul_opp_l, mul_opp_r, opp_involutive. Qed.

Lemma sqrt_square_not_negative (x : float) : (sqrt (x * x) <? 0) = false.
Proof.
  rewrite ltb_spec, sqrt_spec, mul_spec.
  change (Prim2SF 0) with (S754_zero false).
  assert (sign_clear (SF64mul (Prim2SF x) (Prim2SF x))) as Hsq.
  { unfold SF64mul, SFmul.
    destruct (Prim2SF x) as [[]|[]| |[] m e]; simpl; try done;
      apply binary_round_aux_sign_clear. }
  assert (sign_clear (SF64sqrt (SF64mul (Prim2SF x) (Prim2SF x)))) as Hrt.
  { unfold SF64sqrt, SFsqrt.
    destruct (SF64mul _ _) as [s|s| |s m e]; simpl in Hsq; subst; try done.
    destruct (SFsqrt_core_binary _ _ _ _) as [[mz ez] lz].
    apply binary_round_aux_sign_clear. }
  destruct (SF64sqrt _) as [s|s| |s m e]; simpl in Hrt; by subst.
Qed.

Variable np_exp : float → float.

(** X25: the signal model is a magnitude: its values are never below
    zero, and it gives the same signal for [m0] and for [-m0]. *)
Theorem two_param_eq_is_a_magnitude (t : list float) (t2 m0 : float) :
  two_param_eq np_exp t t2 (- m0) = two_param_eq np_exp t t2 m0 ∧
  Forall (fun v => (v <? 0) = false) (two_param_eq np_exp t t2 m0).
Proof.
  unfold two_param_eq. split.
  - apply map_ext. intros ti. simpl. by rewrite mul_opp_l, square_opp.
  - apply Forall_fmap, Forall_forall. intros ti _. simpl.
    apply sqrt_square_not_negative.
Qed.

End SignalModel.
